(** * genmath: generic numeric helpers (Go), embedded and verified

    The Go package [genmath] is a set of pure functions, generic over the
    type-set interface [Real] (every integer and floating-point type).  The
    embedding keeps that shape: a type class [Real] carries the operators the
    generic bodies use, with one instance per fixed-width integer type
    (values in [Z], wrap-around written out) and one for [float64] (the
    kernel's binary64 numbers).  Integer division by zero is a run-time
    panic in Go, so operators that may divide return a [result]; the only
    loop of the package, in [QuickIntegral], is driven by fuel. *)

From Stdlib Require Import ZArith Lia Bool List Floats.
Import ListNotations.

Local Open Scope Z_scope.

(** ** Run-time panics *)

Inductive result (A : Type) : Type :=
| Ok (a : A)
| DivideByZero.

Arguments Ok {A} a.
Arguments DivideByZero {A}.

Definition bind {A B : Type} (r : result A) (k : A -> result B) : result B :=
  match r with
  | Ok a => k a
  | DivideByZero => DivideByZero
  end.

Notation "x <- r ;; k" := (bind r (fun x => k))
  (at level 61, r at next level, right associativity).

(** ** Fixed-width integer types *)

Record itype : Type := IType { signed : bool; bits : Z }.

Definition int8 := IType true 8.
Definition int16 := IType true 16.
Definition int32 := IType true 32.
Definition int64 := IType true 64.
Definition uint8 := IType false 8.
Definition uint16 := IType false 16.
Definition uint32 := IType false 32.
Definition uint64 := IType false 64.

(** Every integer type of the [Integer] type set, on a 64-bit platform
    ([int], [uint] and [uintptr] are then [int64] and [uint64]). *)
Definition go_itype (t : itype) : Prop :=
  bits t = 8 \/ bits t = 16 \/ bits t = 32 \/ bits t = 64.

Definition modulus (t : itype) : Z := 2 ^ bits t.
Definition half_modulus (t : itype) : Z := 2 ^ (bits t - 1).

Definition min_int (t : itype) : Z :=
  if signed t then - half_modulus t else 0.
Definition max_int (t : itype) : Z :=
  if signed t then half_modulus t - 1 else modulus t - 1.

Definition in_range (t : itype) (z : Z) : Prop :=
  min_int t <= z <= max_int t.

(** Two's-complement wrap-around of a mathematical integer into [t]. *)
Definition wrap (t : itype) (z : Z) : Z :=
  let u := z mod modulus t in
  if signed t && (half_modulus t <=? u) then u - modulus t else u.

Definition MAX_I64 : Z := 9223372036854775807.
Definition MIN_I64 : Z := -9223372036854775808.
Definition MAX_U64 : Z := 18446744073709551615.

(** ** The [Real] constraint as a class of operators *)

Class Real (T : Type) : Type := {
  lit : Z -> T;                 (* an untyped integer constant used at T *)
  add : T -> T -> T;
  sub : T -> T -> T;
  mul : T -> T -> T;
  neg : T -> T;
  quo : T -> T -> result T;     (* the operator / *)
  ltb : T -> T -> bool;
  leb : T -> T -> bool
}.

Definition gtb {T} `{Real T} (a b : T) : bool := ltb b a.
Definition geb {T} `{Real T} (a b : T) : bool := leb b a.

(** Conversions [uint64(x)] and [T(u)] for [u] of type [uint64]. *)
Class ConvUint64 (T : Type) : Type := {
  to_uint64 : T -> Z;
  of_uint64 : Z -> T
}.

(** Conversions [float64(x)] and [T(f)] for [f] of type [float64]. *)
Class ConvFloat64 (T : Type) : Type := {
  to_float64 : T -> float;
  of_float64 : float -> T
}.

(** Integer instance: every operator wraps; [/] truncates toward zero and
    panics on a zero divisor. *)
Definition IntReal (t : itype) : Real Z := {|
  lit := fun z => wrap t z;
  add := fun a b => wrap t (a + b);
  sub := fun a b => wrap t (a - b);
  mul := fun a b => wrap t (a * b);
  neg := fun a => wrap t (- a);
  quo := fun a b => if b =? 0 then DivideByZero else Ok (wrap t (Z.quot a b));
  ltb := Z.ltb;
  leb := Z.leb
|}.

Definition IntConvUint64 (t : itype) : ConvUint64 Z := {|
  to_uint64 := fun v => wrap uint64 v;
  of_uint64 := fun u => wrap t u
|}.

(** Constants of [float64]. *)
Definition f64_lit (z : Z) : float :=
  match z with
  | Z0 => PrimFloat.zero
  | Zpos _ => PrimFloat.of_uint63 (Uint63.of_Z z)
  | Zneg _ => PrimFloat.opp (PrimFloat.of_uint63 (Uint63.of_Z (- z)))
  end.

Definition Float64Real : Real float := {|
  lit := f64_lit;
  add := PrimFloat.add;
  sub := PrimFloat.sub;
  mul := PrimFloat.mul;
  neg := PrimFloat.opp;
  quo := fun a b => Ok (PrimFloat.div a b);
  ltb := PrimFloat.ltb;
  leb := PrimFloat.leb
|}.

Definition Float64Conv : ConvFloat64 float := {|
  to_float64 := fun f => f;
  of_float64 := fun f => f
|}.

(** ** The standard library's [math.Mod]

    [math.Mod(x, y)] of Go's standard library, after its portable
    implementation: the special cases first, then repeated subtraction of
    the divisor scaled to the remainder's exponent.  Every round lowers the
    remainder's exponent, and binary64 has fewer than 2200 of them, which
    bounds the rounds. *)
Fixpoint math_Mod_loop (fuel : nat) (y yfr : float) (yexp : Z) (r : float) : float :=
  match fuel with
  | O => r
  | S n =>
      if PrimFloat.leb y r then
        let (rfr, rexp) := Z.frexp r in
        let rexp := if PrimFloat.ltb rfr yfr then rexp - 1 else rexp in
        math_Mod_loop n y yfr yexp (PrimFloat.sub r (Z.ldexp y (rexp - yexp)))
      else r
  end.

Definition math_Mod (x y : float) : float :=
  if PrimFloat.eqb y PrimFloat.zero || PrimFloat.is_infinity x
     || PrimFloat.is_nan x || PrimFloat.is_nan y
  then PrimFloat.nan
  else
    let y := PrimFloat.abs y in
    let (yfr, yexp) := Z.frexp y in
    let r := if PrimFloat.ltb x PrimFloat.zero then PrimFloat.opp x else x in
    let r := math_Mod_loop 2200 y yfr yexp r in
    if PrimFloat.ltb x PrimFloat.zero then PrimFloat.opp r else r.

(** ** The package's functions *)

Section Generic.

Context {T : Type} {R : Real T}.

Definition Abs (val : T) : T :=
  if ltb val (lit 0) then neg val else val.

Definition Min (a b : T) : T := if ltb a b then a else b.

Definition Max (a b : T) : T := if gtb a b then a else b.

Definition Clamp (min val max : T) : T :=
  if ltb val min then min
  else if gtb val max then max
  else val.

(** [uVal % uDiv] on [uint64]. *)
Definition u64_rem (a b : Z) : result Z :=
  if b =? 0 then DivideByZero else Ok (a mod b).

Definition IMod {C : ConvUint64 T} (val div : T) : result T :=
  let negV := ltb val (lit 0) in
  let negD := ltb div (lit 0) in
  let val := if negV then neg val else val in
  let div := if negD then neg div else div in
  let uVal := to_uint64 val in
  let uDiv := to_uint64 div in
  uMod <- u64_rem uVal uDiv ;;
  let mod_ := of_uint64 uMod in
  Ok (if (negV && negb negD) || (negb negV && negD) then neg mod_ else mod_).

Definition FMod {C : ConvFloat64 T} (val div : T) : T :=
  let negV := ltb val (lit 0) in
  let negD := ltb div (lit 0) in
  let val := if negV then neg val else val in
  let div := if negD then neg div else div in
  let fVal := to_float64 val in
  let fDiv := to_float64 div in
  let fMod := math_Mod fVal fDiv in
  let fMod := if (negV && negb negD) || (negb negV && negD)
              then PrimFloat.opp fMod else fMod in
  of_float64 fMod.

Definition IWholeRem (value mod_ : T) : result (T * T) :=
  whole <- quo value mod_ ;;
  let rem := sub value whole in
  Ok (whole, rem).

Definition QuickDerivative (at_ resolution : T) (formula : T -> T) : result T :=
  let xHi := add at_ resolution in
  let xLo := sub at_ resolution in
  let yHi := formula xHi in
  let yLo := formula xLo in
  d <- quo xHi xLo ;;
  quo (sub yHi yLo) d.

(** One round of the [for !done] loop of [QuickIntegral]: the new [sum],
    the new [xLo] and the flag [done]. *)
Definition QuickIntegral_body (to resolution : T) (formula : T -> T)
    (sum xLo : T) : result (T * T * bool) :=
  let xHi := add xLo resolution in
  let '(xHi, done) := if geb xHi to then (to, true) else (xHi, false) in
  let yHi := formula xHi in
  let yLo := formula xLo in
  let aLo := mul resolution yLo in
  let aHi := mul resolution yHi in
  area <- quo (add aLo aHi) (lit 2) ;;
  Ok (add sum area, xHi, done).

(** The loop, with [fuel] rounds at most; [None] when they do not suffice. *)
Fixpoint QuickIntegral_loop (fuel : nat) (to resolution : T) (formula : T -> T)
    (sum xLo : T) : option (result T) :=
  match fuel with
  | O => None
  | S n =>
      match QuickIntegral_body to resolution formula sum xLo with
      | DivideByZero => Some DivideByZero
      | Ok (sum', xLo', done) =>
          if done then Some (Ok sum')
          else QuickIntegral_loop n to resolution formula sum' xLo'
      end
  end.

Definition QuickIntegral (fuel : nat) (from to resolution : T)
    (formula : T -> T) : option (result T) :=
  let '(from, to) := if gtb from to then (to, from) else (from, to) in
  QuickIntegral_loop fuel to resolution formula (lit 0) from.

Definition RangesOverlap (startA endA startB endB : T) : bool :=
  leb startA endB && leb startB endA.

Definition CombineRangesIfOverlap (startA endA startB endB : T)
    : bool * T * T :=
  if negb (RangesOverlap startA endA startB endB)
  then (false, lit 0, lit 0)
  else (true, Min startA startB, Max endA endB).

End Generic.

(** Instantiations at the integer types and at [float64]. *)
Definition IMod_int (t : itype) : Z -> Z -> result Z :=
  IMod (R := IntReal t) (C := IntConvUint64 t).
Definition FMod_f64 : float -> float -> float :=
  FMod (R := Float64Real) (C := Float64Conv).
Definition IWholeRem_int (t : itype) : Z -> Z -> result (Z * Z) :=
  IWholeRem (R := IntReal t).
Definition QuickDerivative_int (t : itype) := QuickDerivative (R := IntReal t).
Definition QuickDerivative_f64 := QuickDerivative (R := Float64Real).
Definition QuickIntegral_int (t : itype) := QuickIntegral (R := IntReal t).
Definition QuickIntegral_f64 := QuickIntegral (R := Float64Real).

(** The rule of the remainder in the specification's words: the remainder of
    the magnitudes, negated exactly when one operand alone is negative. *)
Definition sign_rule_mod (val div : Z) : Z :=
  let m := Z.abs val mod Z.abs div in
  if xorb (val <? 0) (div <? 0) then - m else m.

(** [-v] is a value of [t], or [t] is 64 bits wide (where [uint64(-v)] is the
    magnitude of the least [int64] all the same). *)
Definition abs_fits (t : itype) (v : Z) : Prop :=
  bits t = 64 \/ - v <= max_int t.

(** The same rule on [float64]: the magnitudes are taken by the code's own
    test [x < 0], the remainder is [math.Mod]'s. *)
Definition f64_sign_rule_mod (val div : float) : float :=
  let mag := fun x => if PrimFloat.ltb x 0%float then PrimFloat.opp x else x in
  let m := math_Mod (mag val) (mag div) in
  if xorb (PrimFloat.ltb val 0%float) (PrimFloat.ltb div 0%float)
  then PrimFloat.opp m else m.

(** ** Special values by bit pattern

    [math.Float32frombits] and [math.Float64frombits] reinterpret an
    unsigned integer as a floating-point number of the same width, so a
    [float32] or [float64] built that way is modelled by its IEEE-754
    encoding; [math.Float32bits] and [math.Float64bits] read it back. *)

Record float32 : Type := Float32frombits { Float32bits : Z }.
Record float64 : Type := Float64frombits { Float64bits : Z }.

Definition QNaN32 : float32 := Float32frombits 0xFFC00001.
Definition SNaN32 : float32 := Float32frombits 0xFF800001.
Definition PInf32 : float32 := Float32frombits 0x7F800000.
Definition NInf32 : float32 := Float32frombits 0xFF800000.

Definition SNaN64 : float64 := Float64frombits 0x7FF0000000000001.
Definition QNaN64 : float64 := Float64frombits 0x7FF8000000000001.
Definition PInf64 : float64 := Float64frombits 0x7FF0000000000000.
Definition NInf64 : float64 := Float64frombits 0xFFF0000000000000.

(** What an IEEE-754 binary encoding denotes: [ebits] exponent bits above
    [mbits] fraction bits, the sign on top.  A NaN is quiet when the leading
    fraction bit is set and signalling otherwise; the other fraction bits
    are its payload. *)
Inductive ieee_value : Type :=
| IeeeZero (negative : bool)
| IeeeFinite (negative : bool) (mantissa exponent : Z)
| IeeeInf (negative : bool)
| IeeeQNaN (negative : bool) (payload : Z)
| IeeeSNaN (negative : bool) (payload : Z).

Definition ieee_decode (ebits mbits : Z) (b : Z) : ieee_value :=
  let sign := Z.testbit b (ebits + mbits) in
  let e := Z.land (Z.shiftr b mbits) (Z.ones ebits) in
  let m := Z.land b (Z.ones mbits) in
  let bias := 2 ^ (ebits - 1) - 1 in
  if e =? Z.ones ebits then
    if m =? 0 then IeeeInf sign
    else if Z.testbit m (mbits - 1)
         then IeeeQNaN sign (Z.land m (Z.ones (mbits - 1)))
         else IeeeSNaN sign m
  else if e =? 0 then
    if m =? 0 then IeeeZero sign else IeeeFinite sign m (1 - bias - mbits)
  else IeeeFinite sign (m + 2 ^ mbits) (e - bias - mbits).

Definition float32_value (f : float32) : ieee_value := ieee_decode 8 23 (Float32bits f).
Definition float64_value (f : float64) : ieee_value := ieee_decode 11 52 (Float64bits f).

(** The binary64 number of the arithmetic model that an encoding denotes. *)
Definition float64_prim (f : float64) : float :=
  match float64_value f with
  | IeeeZero s => SF2Prim (S754_zero s)
  | IeeeFinite s m e =>
      match m with
      | Zpos p => SF2Prim (S754_finite s p e)
      | _ => PrimFloat.nan
      end
  | IeeeInf s => SF2Prim (S754_infinity s)
  | IeeeQNaN _ _ | IeeeSNaN _ _ => PrimFloat.nan
  end.

(** ** The integral in the specification's words

    The walk from [xLo] in steps of [resolution], the last step clamped to
    [to]; one trapezoid of width [resolution] per step; their sum. *)

Section IntegralSpec.

Context {T : Type} {R : Real T}.

Definition trapezoid (resolution yLo yHi : T) : result T :=
  quo (mul resolution (add yLo yHi)) (lit 2).

Fixpoint integral_steps (fuel : nat) (to resolution xLo : T)
    : option (list (T * T)) :=
  match fuel with
  | O => None
  | S n =>
      let xHi := add xLo resolution in
      if geb xHi to then Some [(xLo, to)]
      else option_map (cons (xLo, xHi)) (integral_steps n to resolution xHi)
  end.

Definition add_trapezoid (resolution : T) (formula : T -> T)
    (acc : result T) (step : T * T) : result T :=
  sum <- acc ;;
  area <- trapezoid resolution (formula (fst step)) (formula (snd step)) ;;
  Ok (add sum area).

Definition sum_trapezoids (resolution : T) (formula : T -> T)
    (sum : T) (steps : list (T * T)) : result T :=
  fold_left (add_trapezoid resolution formula) steps (Ok sum).

Definition QuickIntegral_spec (fuel : nat) (from to resolution : T)
    (formula : T -> T) : option (result T) :=
  let '(lo, hi) := if gtb from to then (to, from) else (from, to) in
  option_map (sum_trapezoids resolution formula (lit 0))
             (integral_steps fuel hi resolution lo).

End IntegralSpec.

(** The area one round adds, on integers. *)
Definition int_area (t : itype) (resolution yLo yHi : Z) : Z :=
  wrap t (wrap t (wrap t (resolution * yLo) + wrap t (resolution * yHi)) ÷ 2).

(** ** Further functions of the package *)

Section MoreGeneric.

Context {T : Type} {R : Real T}.

Definition Sign (val : T) : T :=
  if ltb val (lit 0) then neg (lit 1) else lit 1.

Definition Square (val : T) : T := mul val val.

Definition Cube (val : T) : T := mul (mul val val) val.

Definition ZeroOrVal (condition : bool) (val : T) : T :=
  if condition then val else lit 0.

(** [math.Pow] belongs to the standard library and is left open. *)
Variable math_Pow : float -> float -> float.

Definition Pow {C : ConvFloat64 T} (val exp : T) : T :=
  let fVal := to_float64 val in
  let fExp := to_float64 exp in
  let fPow := math_Pow fVal fExp in
  of_float64 fPow.

(** [Pow(val, 1/root)]: the quotient [1/root] is taken in [T]. *)
Definition Root {C : ConvFloat64 T} (val root : T) : result T :=
  e <- quo (lit 1) root ;;
  Ok (Pow val e).

End MoreGeneric.

(** The platform constants, for a [uint] (or [uintptr]) of [w] bits:
    [32 << (^uint(0) >> 63)], a byte count, and [1<<PTR_BITS - 1]. *)
Definition WORD_BITS (w : Z) : Z :=
  Z.shiftl 32 (Z.shiftr (Z.lnot 0 mod 2 ^ w) 63).
Definition WORD_BYTES (w : Z) : Z := WORD_BITS w / 8.
Definition PTR_BITS (w : Z) : Z :=
  Z.shiftl 32 (Z.shiftr (Z.lnot 0 mod 2 ^ w) 63).
Definition PTR_BYTES (w : Z) : Z := PTR_BITS w / 8.
Definition MAX_UINTPTR (w : Z) : Z := Z.shiftl 1 (PTR_BITS w) - 1.

(** The number of rounds of [QuickIntegral]'s loop over [lo, hi]. *)
Definition integral_rounds (lo hi resolution : Z) : Z :=
  Z.max 1 ((hi - lo + resolution - 1) / resolution).

(** The same sum with the area grouped as the code computes it, one product
    per sample: [(resolution*yLo + resolution*yHi) / 2]. *)

Section IntegralSplit.

Context {T : Type} {R : Real T}.

Definition split_area (resolution yLo yHi : T) : result T :=
  quo (add (mul resolution yLo) (mul resolution yHi)) (lit 2).

Definition add_split_area (resolution : T) (formula : T -> T)
    (acc : result T) (step : T * T) : result T :=
  sum <- acc ;;
  area <- split_area resolution (formula (fst step)) (formula (snd step)) ;;
  Ok (add sum area).

Definition sum_split_areas (resolution : T) (formula : T -> T)
    (sum : T) (steps : list (T * T)) : result T :=
  fold_left (add_split_area resolution formula) steps (Ok sum).

Definition QuickIntegral_spec_split (fuel : nat) (from to resolution : T)
    (formula : T -> T) : option (result T) :=
  let '(lo, hi) := if gtb from to then (to, from) else (from, to) in
  option_map (sum_split_areas resolution formula (lit 0))
             (integral_steps fuel hi resolution lo).

End IntegralSplit.

(** ** Facts about wrap-around *)

Section IntFacts.

Variable t : itype.
Hypothesis Hbits : 0 < bits t.

Lemma modulus_half : modulus t = 2 * half_modulus t.
Proof.
  unfold modulus, half_modulus.
  replace (bits t) with (Z.succ (bits t - 1)) at 1 by lia.
  rewrite Z.pow_succ_r by lia. reflexivity.
Qed.

Lemma half_modulus_pos : 0 < half_modulus t.
Proof. unfold half_modulus. apply Z.pow_pos_nonneg; lia. Qed.

Lemma modulus_pos : 0 < modulus t.
Proof. rewrite modulus_half. pose proof half_modulus_pos. lia. Qed.

Lemma mod_modulus_neg (z : Z) :
  - modulus t <= z < 0 -> z mod modulus t = z + modulus t.
Proof.
  intros Hz. symmetry. apply (Z.mod_unique z (modulus t) (-1)); lia.
Qed.

Lemma wrap_in_range (z : Z) : in_range t z -> wrap t z = z.
Proof.
  unfold in_range, min_int, max_int, wrap.
  pose proof modulus_half as Hm. pose proof half_modulus_pos as Hh.
  destruct (signed t); simpl; intros Hz.
  - destruct (Z.lt_ge_cases z 0) as [Hneg | Hge].
    + rewrite mod_modulus_neg by lia.
      destruct (Z.leb_spec (half_modulus t) (z + modulus t)); lia.
    + rewrite Z.mod_small by lia.
      destruct (Z.leb_spec (half_modulus t) z); lia.
  - apply Z.mod_small; lia.
Qed.

Lemma wrap_range (z : Z) : in_range t (wrap t z).
Proof.
  unfold in_range, min_int, max_int, wrap.
  pose proof modulus_half as Hm. pose proof half_modulus_pos as Hh.
  pose proof (Z.mod_pos_bound z (modulus t) modulus_pos) as Hb.
  destruct (signed t); simpl.
  - destruct (Z.leb_spec (half_modulus t) (z mod modulus t)); lia.
  - lia.
Qed.

Lemma wrap_congr (a b : Z) :
  a mod modulus t = b mod modulus t -> wrap t a = wrap t b.
Proof. unfold wrap. intros ->. reflexivity. Qed.

Lemma wrap_mod (z : Z) : wrap t z mod modulus t = z mod modulus t.
Proof.
  unfold wrap.
  pose proof modulus_pos as Hm.
  destruct (signed t && (half_modulus t <=? z mod modulus t)).
  - replace (z mod modulus t - modulus t)
      with (z mod modulus t + (-1) * modulus t) by lia.
    rewrite Z.mod_add by lia. apply Z.mod_mod. lia.
  - apply Z.mod_mod. lia.
Qed.

Lemma wrap_add_wrap (a b : Z) : wrap t (wrap t a + wrap t b) = wrap t (a + b).
Proof.
  apply wrap_congr. pose proof modulus_pos.
  rewrite Z.add_mod, !wrap_mod, <- Z.add_mod by lia. reflexivity.
Qed.

Lemma wrap_mul_wrap_r (a b : Z) : wrap t (a * wrap t b) = wrap t (a * b).
Proof.
  apply wrap_congr. pose proof modulus_pos.
  rewrite Z.mul_mod, wrap_mod, <- Z.mul_mod by lia. reflexivity.
Qed.

End IntFacts.

(** ** Sign-aware modulo *)

Lemma int64_bounds :
  min_int int64 = MIN_I64 /\ max_int int64 = MAX_I64 /\ max_int uint64 = MAX_U64.
Proof. repeat split. Qed.

Lemma go_itype_bits (t : itype) : go_itype t -> 0 < bits t <= 64.
Proof. unfold go_itype. lia. Qed.

Lemma max_int_lt_u64 (t : itype) : go_itype t -> max_int t < 2 ^ 64.
Proof.
  intros Ht. pose proof (go_itype_bits t Ht) as Hb.
  pose proof (modulus_half t ltac:(lia)) as Hm.
  pose proof (half_modulus_pos t ltac:(lia)) as Hh.
  assert (modulus t <= 2 ^ 64) as Hle.
  { unfold modulus. apply Z.pow_le_mono_r; lia. }
  unfold max_int. destruct (signed t); lia.
Qed.

Lemma wrap_uint64 (z : Z) : wrap uint64 z = z mod 2 ^ 64.
Proof. reflexivity. Qed.

Lemma wrap_zero (t : itype) : 0 < bits t -> wrap t 0 = 0.
Proof.
  intros Hb. apply wrap_in_range; [assumption|].
  pose proof (modulus_half t Hb). pose proof (half_modulus_pos t Hb).
  unfold in_range, min_int, max_int. destruct (signed t); lia.
Qed.

(** [uint64] of the operand after its conditional negation is its magnitude. *)
Lemma magnitude_u64 (t : itype) (v : Z) :
  go_itype t -> in_range t v -> abs_fits t v ->
  wrap uint64 (if v <? 0 then wrap t (- v) else v) = Z.abs v.
Proof.
  intros Ht Hv Hfit.
  pose proof (go_itype_bits t Ht) as Hb.
  pose proof (modulus_half t ltac:(lia)) as Hm.
  pose proof (half_modulus_pos t ltac:(lia)) as Hh.
  pose proof (max_int_lt_u64 t Ht) as Hmax.
  rewrite wrap_uint64.
  destruct (Z.ltb_spec v 0) as [Hneg | Hpos].
  - destruct (Z_le_gt_dec (- v) (max_int t)) as [Hle | Hgt].
    + rewrite wrap_in_range by
        (try lia; unfold in_range, min_int, max_int in *; destruct (signed t); lia).
      rewrite Z.mod_small; lia.
    + destruct Hfit as [H64 | Hle]; [|lia].
      unfold in_range, min_int, max_int in *.
      destruct t as [s b]; simpl in *; subst b.
      destruct s; [|lia].
      change (half_modulus (IType true 64)) with (2 ^ 63) in *.
      assert (v = - 2 ^ 63) as -> by lia.
      vm_compute. reflexivity.
  - unfold in_range in Hv. rewrite Z.mod_small; lia.
Qed.

(** [IMod] on integers follows the rule, whenever the divisor is not zero. *)
Lemma IMod_int_rule (t : itype) (val div : Z) :
  go_itype t -> in_range t val -> in_range t div -> div <> 0 ->
  abs_fits t val -> abs_fits t div ->
  IMod_int t val div = Ok (sign_rule_mod val div).
Proof.
  intros Ht Hv Hd Hnz Hfv Hfd.
  pose proof (go_itype_bits t Ht) as Hb.
  pose proof (modulus_half t ltac:(lia)) as Hm.
  pose proof (half_modulus_pos t ltac:(lia)) as Hh.
  unfold IMod_int, IMod, sign_rule_mod.
  cbn [ltb lit neg to_uint64 of_uint64 IntReal IntConvUint64].
  rewrite wrap_zero by lia.
  rewrite !magnitude_u64 by assumption.
  unfold u64_rem.
  destruct (Z.eqb_spec (Z.abs div) 0) as [H0 | _]; [lia|].
  cbn [bind]. f_equal.
  pose proof (Z.mod_pos_bound (Z.abs val) (Z.abs div) ltac:(lia)) as Hmb.
  set (m := Z.abs val mod Z.abs div) in *.
  assert (in_range t m /\ (signed t = true -> in_range t (- m))) as [Hrm Hrn].
  { unfold in_range, min_int, max_int in *. destruct (signed t); split; lia. }
  rewrite (wrap_in_range t ltac:(lia) m Hrm).
  destruct (Z.ltb_spec val 0) as [Hvn | Hvp];
    destruct (Z.ltb_spec div 0) as [Hdn | Hdp]; cbn; try reflexivity;
    (apply wrap_in_range; [lia|]; apply Hrn;
     unfold in_range, min_int in *; destruct (signed t); [reflexivity | lia]).
Qed.

Example IMod_ex2 : IMod_int int64 7 (-3) = Ok (-1).
Proof. reflexivity. Qed.

Lemma FMod_f64_rule (val div : float) :
  FMod_f64 val div = f64_sign_rule_mod val div.
Proof.
  unfold FMod_f64, FMod, f64_sign_rule_mod.
  cbn [ltb lit neg to_float64 of_float64 Float64Real Float64Conv f64_lit].
  change PrimFloat.zero with 0%float.
  destruct (PrimFloat.ltb val 0%float), (PrimFloat.ltb div 0%float); reflexivity.
Qed.

(** On integers the result is the native remainder [val % div] for a positive
    divisor and its opposite for a negative one. *)
Lemma sign_rule_mod_rem (val div : Z) :
  div <> 0 ->
  sign_rule_mod val div = if div <? 0 then - Z.rem val div else Z.rem val div.
Proof.
  intros Hnz. unfold sign_rule_mod.
  rewrite <- (Z.rem_mod_nonneg (Z.abs val) (Z.abs div)) by lia.
  rewrite Z.rem_abs by lia.
  destruct (Z.ltb_spec val 0) as [Hv | Hv]; destruct (Z.ltb_spec div 0); cbn.
  - pose proof (Z.rem_nonpos val div Hnz ltac:(lia)). lia.
  - pose proof (Z.rem_nonpos val div Hnz ltac:(lia)). lia.
  - pose proof (Z.rem_nonneg val div Hnz Hv). lia.
  - pose proof (Z.rem_nonneg val div Hnz Hv). lia.
Qed.

(** C1 (as amended).  [IMod] and [FMod] return the remainder of the
    magnitudes, negated exactly when one operand alone is negative: on every
    integer type, for operands whose magnitudes the type holds and a divisor
    other than zero, and on [float64] for all operands.  By that rule
    [IMod(-7,3) = -1], [IMod(7,-3) = -1], [IMod(-7,-3) = 1], [IMod(7,3) = 1]
    and [FMod(-7.0,3.0) = -1.0]. *)
Theorem IMod_FMod_sign_rule :
  (forall (t : itype) (val div : Z),
      go_itype t -> in_range t val -> in_range t div -> div <> 0 ->
      abs_fits t val -> abs_fits t div ->
      IMod_int t val div = Ok (sign_rule_mod val div))
  /\ IMod_int int64 (-7) 3 = Ok (-1)
  /\ IMod_int int64 7 (-3) = Ok (-1)
  /\ IMod_int int64 (-7) (-3) = Ok 1
  /\ IMod_int int64 7 3 = Ok 1
  /\ (forall val div : float, FMod_f64 val div = f64_sign_rule_mod val div)
  /\ FMod_f64 (-7)%float 3%float = (-1)%float.
Proof.
  split; [exact IMod_int_rule|].
  repeat split; try reflexivity.
  exact FMod_f64_rule.
Qed.

Lemma IMod_FMod_sign_rule_witness :
  go_itype int8 /\ in_range int8 (-100) /\ in_range int8 (-7)
  /\ IMod_int int8 (-100) (-7) = Ok 2.
Proof.
  assert (go_itype int8) as Ht by (left; reflexivity).
  assert (in_range int8 (-100)) as Hv by (unfold in_range; cbn; lia).
  assert (in_range int8 (-7)) as Hd by (unfold in_range; cbn; lia).
  split; [exact Ht | split; [exact Hv | split; [exact Hd |]]].
  apply (proj1 IMod_FMod_sign_rule int8 (-100) (-7) Ht Hv Hd).
  - lia.
  - right. cbn. lia.
  - right. cbn. lia.
Defined.

(** C1, as stated, fails: with a negative divisor the code's results are the
    opposites of the ones claimed.  (Besides, on a type narrower than 64 bits
    the least value has no magnitude in the type: [IMod] of [int8] -128 by 7
    is 0, where the remainder of the magnitudes is 2.) *)
Lemma IMod_negative_divisor_counterexample :
  IMod_int int64 7 (-3) = Ok (-1) /\ IMod_int int64 7 (-3) <> Ok 1
  /\ IMod_int int64 (-7) (-3) = Ok 1 /\ IMod_int int64 (-7) (-3) <> Ok (-1)
  /\ IMod_int int8 (-128) 7 = Ok 0 /\ sign_rule_mod (-128) 7 = -2.
Proof. repeat split; try reflexivity; discriminate. Qed.

(** C9.  Neither function guards a zero divisor: on every integer type
    [IMod(val, 0)] runs into the division-by-zero panic of [uVal % uDiv],
    whatever [val] is, and [FMod(val, 0)] on [float64] returns the NaN that
    [math.Mod] produces for a zero divisor, of either sign. *)
Theorem IMod_FMod_zero_divisor_unguarded (t : itype) (val : Z) (fval : float) :
  go_itype t ->
  IMod_int t val 0 = DivideByZero
  /\ math_Mod fval 0%float = PrimFloat.nan
  /\ FMod_f64 fval 0%float = PrimFloat.nan
  /\ FMod_f64 fval (-0)%float = PrimFloat.nan.
Proof.
  intros Ht. pose proof (go_itype_bits t Ht) as Hb.
  repeat split.
  - unfold IMod_int, IMod.
    cbn [ltb lit neg to_uint64 of_uint64 IntReal IntConvUint64].
    rewrite wrap_zero by lia. cbn. reflexivity.
  - rewrite FMod_f64_rule. unfold f64_sign_rule_mod.
    destruct (PrimFloat.ltb fval 0%float); reflexivity.
  - rewrite FMod_f64_rule. unfold f64_sign_rule_mod.
    destruct (PrimFloat.ltb fval 0%float); reflexivity.
Qed.

Lemma IMod_FMod_zero_divisor_unguarded_witness :
  go_itype int64
  /\ IMod_int int64 5 0 = DivideByZero
  /\ FMod_f64 5%float 0%float = PrimFloat.nan.
Proof.
  assert (go_itype int64) as Ht by (right; right; right; reflexivity).
  pose proof (IMod_FMod_zero_divisor_unguarded int64 5 5%float Ht) as H.
  split; [exact Ht | split; apply H].
Defined.

(** ** Special values *)

(** C8.  The constructors return fixed bit patterns: [QNaN32()] has the
    pattern [0xFFC00001], a negative quiet NaN of payload 1, and [PInf64()]
    has the pattern [0x7FF0000000000000], positive infinity. *)
Theorem special_value_bit_patterns :
  Float32bits QNaN32 = 0xFFC00001
  /\ Float64bits PInf64 = 0x7FF0000000000000
  /\ float32_value QNaN32 = IeeeQNaN true 1
  /\ float64_value PInf64 = IeeeInf false
  /\ float64_prim PInf64 = PrimFloat.infinity.
Proof. repeat split; vm_compute; reflexivity. Qed.

(** ** Derivative estimate *)

(** C2.  [QuickDerivative] divides the difference of the two samples by the
    ratio [xHi / xLo] of the sample points, not by their difference: on
    [float64], for the identity at 5 with resolution 1, it returns
    [(6-4)/(6/4)], the binary64 number nearest 4/3 (between 1.333 and 1.334),
    which is not 1, the value a difference in the divisor would give.  On
    [int64] the same call returns [2/(6/4) = 2]. *)
Theorem QuickDerivative_ratio_divisor :
  (forall (at_ resolution : float) (formula : float -> float),
      QuickDerivative_f64 at_ resolution formula
      = Ok ((formula (at_ + resolution) - formula (at_ - resolution))
            / ((at_ + resolution) / (at_ - resolution)))%float)
  /\ QuickDerivative_f64 5%float 1%float (fun x => x) = Ok ((6 - 4) / (6 / 4))%float
  /\ QuickDerivative_f64 5%float 1%float (fun x => x) = Ok (4 / 3)%float
  /\ PrimFloat.ltb (1333 / 1000)%float (4 / 3)%float = true
  /\ PrimFloat.ltb (4 / 3)%float (1334 / 1000)%float = true
  /\ PrimFloat.eqb (4 / 3)%float 1%float = false
  /\ ((6 - 4) / (6 - 4))%float = 1%float
  /\ QuickDerivative_int int64 5 1 (fun x => x) = Ok 2.
Proof. repeat split; vm_compute; reflexivity. Qed.

(** ** Whole and remainder *)

Lemma quot_abs_le (a b : Z) : b <> 0 -> Z.abs (a ÷ b) <= Z.abs a.
Proof.
  intros Hb. rewrite <- Z.quot_abs by assumption.
  apply Z.quot_le_upper_bound; [lia|].
  assert (1 <= Z.abs b) by lia. nia.
Qed.

Lemma quot_abs_lt (a b : Z) : 1 < Z.abs b -> a <> 0 -> Z.abs (a ÷ b) < Z.abs a.
Proof.
  intros Hb Ha. rewrite <- Z.quot_abs by lia.
  apply Z.quot_lt; lia.
Qed.

(** The truncated quotient is a value of the type, but for the least signed
    value divided by -1. *)
Lemma quot_in_range (t : itype) (a b : Z) :
  0 < bits t -> in_range t a -> in_range t b -> b <> 0 ->
  a <> min_int t \/ b <> -1 ->
  in_range t (a ÷ b).
Proof.
  intros Hbits Ha Hb Hnz Hov.
  pose proof (modulus_half t Hbits) as Hm.
  pose proof (half_modulus_pos t Hbits) as Hh.
  pose proof (quot_abs_le a b Hnz) as Hle.
  unfold in_range, min_int, max_int in *.
  destruct (signed t).
  - destruct (Z.eq_dec (Z.abs b) 1) as [H1 | H1].
    + destruct (Z.eq_dec b 1) as [-> | Hb1].
      * rewrite Z.quot_1_r. lia.
      * assert (b = -1) as -> by lia.
        replace (a ÷ -1) with (- a); [lia|].
        change (-1) with (- (1)).
        rewrite Z.quot_opp_r by lia. rewrite Z.quot_1_r. reflexivity.
    + destruct (Z.eq_dec a 0) as [-> | Ha0].
      * rewrite Z.quot_0_l by lia. lia.
      * pose proof (quot_abs_lt a b ltac:(lia) Ha0). lia.
  - assert (0 <= a ÷ b) by (apply Z.quot_pos; lia). lia.
Qed.

(** C6.  For a divisor other than zero [IWholeRem] returns the truncated
    quotient [value / mod] as [whole] and [value - whole] as [rem], where a
    remainder would be [value - whole*mod]: both in the type's wrapping
    arithmetic, the quotient being exact but for the least signed value
    over -1.  So [IWholeRem(7, 2)] is [(3, 4)], not [(3, 1)]. *)
Theorem IWholeRem_whole_rem (t : itype) (value mod_ : Z) :
  go_itype t -> in_range t value -> in_range t mod_ -> mod_ <> 0 ->
  let whole := wrap t (value ÷ mod_) in
  let rem := wrap t (value - whole) in
  IWholeRem_int t value mod_ = Ok (whole, rem)
  /\ (value <> min_int t \/ mod_ <> -1 -> whole = value ÷ mod_)
  /\ (in_range t (value - whole) -> rem = value - whole)
  /\ IWholeRem_int int64 7 2 = Ok (3, 4).
Proof.
  intros Ht Hv Hm Hnz whole rem. pose proof (go_itype_bits t Ht) as Hb.
  split.
  { unfold IWholeRem_int, IWholeRem. cbn [quo sub IntReal].
    destruct (Z.eqb_spec mod_ 0); [contradiction|]. reflexivity. }
  split.
  { intros Hov. apply wrap_in_range; [lia|].
    apply quot_in_range; assumption || lia. }
  split; [|reflexivity].
  intros Hr. apply wrap_in_range; [lia | assumption].
Qed.

Lemma IWholeRem_whole_rem_witness :
  go_itype int8 /\ in_range int8 (-100) /\ in_range int8 7
  /\ IWholeRem_int int8 (-100) 7 = Ok (-14, -86).
Proof.
  assert (go_itype int8) as Ht by (left; reflexivity).
  assert (in_range int8 (-100)) as Hv by (unfold in_range; cbn; lia).
  assert (in_range int8 7) as Hd by (unfold in_range; cbn; lia).
  assert (7 <> 0) as Hnz by lia.
  split; [exact Ht | split; [exact Hv | split; [exact Hd |]]].
  exact (proj1 (IWholeRem_whole_rem int8 (-100) 7 Ht Hv Hd Hnz)).
Defined.

(** ** Ranges *)

Lemma Min_int (t : itype) (a b : Z) : Min (R := IntReal t) a b = Z.min a b.
Proof.
  unfold Min. cbn [ltb IntReal].
  destruct (Z.ltb_spec a b); lia.
Qed.

Lemma Max_int (t : itype) (a b : Z) : Max (R := IntReal t) a b = Z.max a b.
Proof.
  unfold Max, gtb. cbn [ltb IntReal].
  destruct (Z.ltb_spec b a); lia.
Qed.

(** C7.  [RangesOverlap] holds exactly when [startA <= endB] and
    [startB <= endA], touching end points included, and
    [CombineRangesIfOverlap] returns [(false, 0, 0)] when it fails and
    [(true, min(startA, startB), max(endA, endB))] when it holds: on every
    integer type, and on [float64] with the package's own [Min] and [Max]. *)
Theorem RangesOverlap_CombineRanges (t : itype) (startA endA startB endB : Z) :
  go_itype t ->
  (RangesOverlap (R := IntReal t) startA endA startB endB = true
   <-> startA <= endB /\ startB <= endA)
  /\ (~ (startA <= endB /\ startB <= endA) ->
      CombineRangesIfOverlap (R := IntReal t) startA endA startB endB
      = (false, 0, 0))
  /\ (startA <= endB /\ startB <= endA ->
      CombineRangesIfOverlap (R := IntReal t) startA endA startB endB
      = (true, Z.min startA startB, Z.max endA endB))
  /\ (forall a b c d : float,
         RangesOverlap (R := Float64Real) a b c d
         = PrimFloat.leb a d && PrimFloat.leb c b
         /\ CombineRangesIfOverlap (R := Float64Real) a b c d
            = if PrimFloat.leb a d && PrimFloat.leb c b
              then (true, Min (R := Float64Real) a c, Max (R := Float64Real) b d)
              else (false, 0%float, 0%float))
  /\ RangesOverlap (R := IntReal int64) 0 5 5 10 = true
  /\ RangesOverlap (R := IntReal int64) 0 4 5 10 = false
  /\ CombineRangesIfOverlap (R := IntReal int64) 0 5 3 10 = (true, 0, 10)
  /\ CombineRangesIfOverlap (R := IntReal int64) 0 2 5 10 = (false, 0, 0).
Proof.
  intros Ht. pose proof (go_itype_bits t Ht) as Hb.
  assert (RangesOverlap (R := IntReal t) startA endA startB endB = true
          <-> startA <= endB /\ startB <= endA) as Hiff.
  { unfold RangesOverlap. cbn [leb IntReal].
    rewrite andb_true_iff, !Z.leb_le. reflexivity. }
  split; [exact Hiff|].
  split.
  { intros Hno. unfold CombineRangesIfOverlap.
    destruct (RangesOverlap startA endA startB endB) eqn:Ho.
    - exfalso. apply Hno, Hiff. reflexivity.
    - cbn [negb lit IntReal]. rewrite wrap_zero by lia. reflexivity. }
  split.
  { intros Hyes. unfold CombineRangesIfOverlap.
    rewrite (proj2 Hiff Hyes). cbn [negb].
    rewrite Min_int, Max_int. reflexivity. }
  split.
  { intros a b c d. unfold CombineRangesIfOverlap, RangesOverlap.
    cbn [leb lit Float64Real f64_lit].
    destruct (PrimFloat.leb a d && PrimFloat.leb c b); split; reflexivity. }
  repeat split.
Qed.

Lemma RangesOverlap_CombineRanges_witness :
  go_itype uint8
  /\ CombineRangesIfOverlap (R := IntReal uint8) 3 7 7 9 = (true, 3, 9).
Proof.
  assert (go_itype uint8) as Ht by (left; reflexivity).
  split; [exact Ht|].
  apply (proj1 (proj2 (proj2 (RangesOverlap_CombineRanges uint8 3 7 7 9 Ht)))).
  lia.
Defined.

(** ** Integral estimate *)

Lemma wrap_two (t : itype) : go_itype t -> wrap t 2 = 2.
Proof.
  intros Ht. pose proof (go_itype_bits t Ht) as Hb.
  apply wrap_in_range; [lia|].
  pose proof (modulus_half t ltac:(lia)) as Hm.
  assert (2 ^ 7 <= half_modulus t) as Hh.
  { unfold half_modulus. apply Z.pow_le_mono_r; unfold go_itype in Ht; lia. }
  change (2 ^ 7) with 128 in Hh.
  unfold in_range, min_int, max_int. destruct (signed t); lia.
Qed.

Lemma QuickIntegral_body_int (t : itype) (to resolution : Z) (formula : Z -> Z)
    (sum xLo : Z) :
  go_itype t ->
  QuickIntegral_body (R := IntReal t) to resolution formula sum xLo
  = let xHi0 := wrap t (xLo + resolution) in
    let done := to <=? xHi0 in
    let xHi := if done then to else xHi0 in
    Ok (wrap t (sum + int_area t resolution (formula xLo) (formula xHi)),
        xHi, done).
Proof.
  intros Ht. unfold QuickIntegral_body, geb, int_area.
  cbn [add mul quo leb lit IntReal].
  rewrite wrap_two by assumption. cbn [Z.eqb].
  destruct (to <=? wrap t (xLo + resolution)); reflexivity.
Qed.

Lemma QuickIntegral_loop_int (t : itype) (n : nat) (to resolution : Z)
    (formula : Z -> Z) (sum xLo : Z) :
  go_itype t ->
  QuickIntegral_loop (R := IntReal t) (S n) to resolution formula sum xLo
  = let xHi0 := wrap t (xLo + resolution) in
    if to <=? xHi0
    then Some (Ok (wrap t (sum + int_area t resolution (formula xLo) (formula to))))
    else QuickIntegral_loop (R := IntReal t) n to resolution formula
           (wrap t (sum + int_area t resolution (formula xLo) (formula xHi0)))
           xHi0.
Proof.
  intros Ht. cbn [QuickIntegral_loop].
  rewrite QuickIntegral_body_int by assumption. cbv zeta.
  destruct (to <=? wrap t (xLo + resolution)); reflexivity.
Qed.

(** More fuel does not change a result. *)
Lemma QuickIntegral_loop_fuel {T : Type} {R : Real T} (n k : nat)
    (to resolution : T) (formula : T -> T) (sum xLo : T) (r : result T) :
  QuickIntegral_loop n to resolution formula sum xLo = Some r ->
  QuickIntegral_loop (n + k) to resolution formula sum xLo = Some r.
Proof.
  revert sum xLo. induction n as [|n IH]; intros sum xLo; [discriminate|].
  cbn [QuickIntegral_loop Nat.add].
  destruct (QuickIntegral_body to resolution formula sum xLo)
    as [[[sum' xLo'] done]|]; [|trivial].
  destruct done; [trivial | apply IH].
Qed.

(** The swap of the bounds leaves the walk with the lesser bound first. *)
Lemma QuickIntegral_int_ordered (t : itype) (fuel : nat)
    (from to resolution : Z) (formula : Z -> Z) :
  QuickIntegral_int t fuel from to resolution formula
  = QuickIntegral_loop (R := IntReal t) fuel (Z.max from to) resolution formula
      (wrap t 0) (Z.min from to).
Proof.
  unfold QuickIntegral_int, QuickIntegral, gtb. cbn [ltb lit IntReal].
  destruct (Z.ltb_spec to from).
  - rewrite Z.max_l, Z.min_r by lia. reflexivity.
  - rewrite Z.max_r, Z.min_l by lia. reflexivity.
Qed.

(** Termination of the walk: with a positive step that cannot overflow past
    the upper bound, [S n] rounds suffice as soon as [n] steps cover the
    distance left. *)
Lemma QuickIntegral_loop_terminates (t : itype) (hi resolution : Z)
    (formula : Z -> Z) (n : nat) :
  go_itype t -> 0 < resolution -> in_range t hi ->
  hi + resolution <= max_int t ->
  forall sum xLo : Z,
    min_int t <= xLo <= hi ->
    hi - xLo <= resolution * Z.of_nat n ->
    exists r : Z,
      QuickIntegral_loop (R := IntReal t) (S n) hi resolution formula sum xLo
      = Some (Ok r).
Proof.
  intros Ht Hres Hhi Hmax. pose proof (go_itype_bits t Ht) as Hb.
  induction n as [|n IH]; intros sum xLo Hx Hdist;
    rewrite QuickIntegral_loop_int by assumption; cbv zeta;
    (rewrite (wrap_in_range t ltac:(lia) (xLo + resolution))
      by (unfold in_range in *; lia)).
  - destruct (Z.leb_spec hi (xLo + resolution)); [eauto | lia].
  - destruct (Z.leb_spec hi (xLo + resolution)); [eauto|].
    apply IH; lia.
Qed.

(** C4 (as amended).  On every integer type [QuickIntegral]'s loop
    terminates, for every [from], [to] and [formula], whenever the
    resolution is positive and the greater bound plus the resolution is
    still a value of the type, because the loop stops when [xHi] reaches or
    exceeds [to]: some number of rounds, and any number above it, yields one
    and the same result, and no round panics. *)
Theorem QuickIntegral_terminates (t : itype) (from to resolution : Z)
    (formula : Z -> Z) :
  go_itype t -> in_range t from -> in_range t to ->
  0 < resolution -> Z.max from to + resolution <= max_int t ->
  exists (fuel : nat) (r : Z),
    forall k : nat,
      QuickIntegral_int t (fuel + k) from to resolution formula = Some (Ok r).
Proof.
  intros Ht Hf Hto Hres Hmax.
  set (lo := Z.min from to). set (hi := Z.max from to).
  set (n := Z.to_nat ((hi - lo) / resolution + 1)).
  assert (in_range t hi) as Hhi by (unfold in_range, hi in *; lia).
  assert (min_int t <= lo <= hi) as Hlo by (unfold in_range, lo, hi in *; lia).
  assert (hi - lo <= resolution * Z.of_nat n) as Hdist.
  { unfold n. pose proof (Z.div_pos (hi - lo) resolution ltac:(lia) Hres).
    rewrite Z2Nat.id by lia.
    pose proof (Z.mul_succ_div_gt (hi - lo) resolution Hres). lia. }
  destruct (QuickIntegral_loop_terminates t hi resolution formula n
              Ht Hres Hhi Hmax (wrap t 0) lo Hlo Hdist) as [r Hr].
  exists (S n), r. intros k.
  rewrite QuickIntegral_int_ordered.
  apply QuickIntegral_loop_fuel. exact Hr.
Qed.

Lemma QuickIntegral_terminates_witness :
  exists (fuel : nat) (r : Z),
    forall k : nat,
      QuickIntegral_int int64 (fuel + k) 0 10 3 (fun x => x * x) = Some (Ok r).
Proof.
  apply (QuickIntegral_terminates int64 0 10 3 (fun x => x * x)).
  - right; right; right; reflexivity.
  - unfold in_range; cbn; lia.
  - unfold in_range; cbn; lia.
  - lia.
  - cbn. lia.
Defined.

(** C4, as stated, fails: with resolution 0 over a non-empty interval a
    round of the loop leaves [sum] and [xLo] as they were and [done] unset,
    so no number of rounds ends the loop, on [int64] and on [float64].  On
    [float64] a positive resolution can fail as well: at [xLo = 1e16] the
    step [xLo + 1] rounds back to [1e16], so the walk to [1e16 + 4] never
    advances. *)
Lemma QuickIntegral_zero_resolution_diverges :
  QuickIntegral_body (R := IntReal int64) 1 0 (fun x => x) 0 0 = Ok (0, 0, false)
  /\ (forall fuel : nat,
         QuickIntegral_int int64 fuel 0 1 0 (fun x => x) = None)
  /\ QuickIntegral_body (R := Float64Real) 1%float 0%float (fun x => x)
       0%float 0%float = Ok (0%float, 0%float, false)
  /\ (forall fuel : nat,
         QuickIntegral_f64 fuel 0%float 1%float 0%float (fun x => x) = None)
  /\ (1e16 + 1)%float = 1e16%float
  /\ (forall fuel : nat,
         QuickIntegral_f64 fuel 1e16%float (1e16 + 4)%float 1%float
           (fun x => x) = None).
Proof.
  assert (QuickIntegral_body (R := IntReal int64) 1 0 (fun x => x) 0 0
          = Ok (0, 0, false)) as Hi by reflexivity.
  assert (QuickIntegral_body (R := Float64Real) 1%float 0%float (fun x => x)
            0%float 0%float = Ok (0%float, 0%float, false)) as Hf
    by (vm_compute; reflexivity).
  split; [exact Hi|]. split.
  { intros fuel. unfold QuickIntegral_int, QuickIntegral.
    change (gtb (H := IntReal int64) 0 1) with false. cbv iota beta.
    change (lit (Real := IntReal int64) 0) with 0.
    induction fuel as [|n IH]; [reflexivity|].
    cbn [QuickIntegral_loop]. rewrite Hi. exact IH. }
  split; [exact Hf|]. split.
  { intros fuel. unfold QuickIntegral_f64, QuickIntegral.
    change (gtb (H := Float64Real) 0%float 1%float) with false. cbv iota beta.
    change (lit (Real := Float64Real) 0) with 0%float.
    induction fuel as [|n IH]; [reflexivity|].
    cbn [QuickIntegral_loop]. rewrite Hf. exact IH. }
  split; [reflexivity|].
  intros fuel. unfold QuickIntegral_f64, QuickIntegral.
  change (gtb (H := Float64Real) 1e16%float (1e16 + 4)%float) with false.
  cbv iota beta.
  generalize (lit (Real := Float64Real) 0). 
  induction fuel as [|n IH]; intros sum; [reflexivity|].
  cbn [QuickIntegral_loop]. unfold QuickIntegral_body.
  change (geb (H := Float64Real) (add (Real := Float64Real) 1e16%float 1%float)
            (1e16 + 4)%float) with false.
  cbn [quo Float64Real bind].
  change (add (Real := Float64Real) 1e16%float 1%float) with 1e16%float.
  apply IH.
Qed.

(** The order of binary64 is asymmetric. *)
Lemma SFltb_asym (x y : spec_float) : SFltb x y = true -> SFltb y x = false.
Proof.
  unfold SFltb.
  destruct x as [sx | sx | | sx mx ex], y as [sy | sy | | sy my ey]; cbn;
    try discriminate; try reflexivity;
    try (destruct sx; discriminate || reflexivity);
    try (destruct sy; discriminate || reflexivity);
    try (destruct sx, sy; discriminate || reflexivity).
  rewrite (Z.compare_antisym ex ey).
  destruct sx, sy; try discriminate; try reflexivity;
    destruct (ex ?= ey); cbn; try discriminate; try reflexivity.
  - pose proof (Pos.compare_cont_antisym mx my Eq) as Ha.
    cbn [CompOpp] in Ha. rewrite <- Ha.
    destruct (Pos.compare_cont Eq mx my); cbn; discriminate || reflexivity.
  - pose proof (Pos.compare_cont_antisym mx my Eq) as Ha.
    cbn [CompOpp] in Ha. rewrite <- Ha.
    destruct (Pos.compare_cont Eq mx my); cbn; discriminate || reflexivity.
Qed.

Lemma f64_ltb_asym (x y : float) :
  PrimFloat.ltb x y = true -> PrimFloat.ltb y x = false.
Proof. rewrite !ltb_spec. apply SFltb_asym. Qed.

(** C5.  [QuickIntegral] is symmetric in its bounds: with [from > to] the
    bounds are swapped, so both orders walk the same ascending interval and
    return the same result, after any number of rounds.  On integer types
    this holds for all arguments; on [float64] for all bounds that compare
    (one below the other, or the same number). *)
Theorem QuickIntegral_symmetric :
  (forall (t : itype) (fuel : nat) (from to resolution : Z) (formula : Z -> Z),
      QuickIntegral_int t fuel from to resolution formula
      = QuickIntegral_int t fuel to from resolution formula)
  /\ (forall (fuel : nat) (from to resolution : float) (formula : float -> float),
         PrimFloat.ltb from to = true \/ PrimFloat.ltb to from = true \/ from = to ->
         QuickIntegral_f64 fuel from to resolution formula
         = QuickIntegral_f64 fuel to from resolution formula).
Proof.
  split.
  - intros t fuel from to resolution formula.
    rewrite !QuickIntegral_int_ordered.
    rewrite (Z.max_comm to from), (Z.min_comm to from). reflexivity.
  - intros fuel from to resolution formula Hcmp.
    unfold QuickIntegral_f64, QuickIntegral, gtb. cbn [ltb Float64Real].
    destruct Hcmp as [Hlt | [Hgt | ->]]; [| |reflexivity].
    + rewrite (f64_ltb_asym from to Hlt), Hlt. reflexivity.
    + rewrite (f64_ltb_asym to from Hgt), Hgt. reflexivity.
Qed.

Lemma QuickIntegral_symmetric_witness :
  QuickIntegral_int int64 8 10 0 3 (fun x => x * x)
  = QuickIntegral_int int64 8 0 10 3 (fun x => x * x)
  /\ QuickIntegral_f64 8 10%float 0%float 3%float (fun x => (x * x)%float)
     = QuickIntegral_f64 8 0%float 10%float 3%float (fun x => (x * x)%float).
Proof.
  split.
  - apply (proj1 QuickIntegral_symmetric).
  - apply (proj2 QuickIntegral_symmetric). right. left. reflexivity.
Defined.

Lemma wrap_add_l (t : itype) (a b : Z) :
  0 < bits t -> wrap t (wrap t a + b) = wrap t (a + b).
Proof.
  intros Hb. apply wrap_congr. pose proof (modulus_pos t Hb).
  rewrite Z.add_mod, wrap_mod, <- Z.add_mod by lia. reflexivity.
Qed.

(** When twice the product [resolution * y] is a value of the type, the
    trapezoid between two samples [y] has the area [resolution * y]. *)
Lemma int_area_constant (t : itype) (resolution y : Z) :
  0 < bits t -> in_range t (2 * (resolution * y)) ->
  int_area t resolution y y = resolution * y.
Proof.
  intros Hb H2.
  pose proof (modulus_half t Hb) as Hm. pose proof (half_modulus_pos t Hb) as Hh.
  assert (in_range t (resolution * y)) as Hp.
  { unfold in_range, min_int, max_int in *. destruct (signed t); lia. }
  unfold int_area. rewrite (wrap_in_range t Hb _ Hp).
  replace (resolution * y + resolution * y) with (resolution * y * 2) by lia.
  rewrite (wrap_in_range t Hb (resolution * y * 2))
    by (replace (resolution * y * 2) with (2 * (resolution * y)) by lia; exact H2).
  rewrite Z.quot_mul by lia. apply wrap_in_range; assumption.
Qed.

(** C10 (as amended).  Over the empty interval, with a positive resolution,
    the loop body runs once and [QuickIntegral(from, from, resolution,
    formula)] returns [resolution * formula(from)], not 0, provided
    [from + resolution] and twice that product are values of the type. *)
Theorem QuickIntegral_empty_interval (t : itype) (from resolution : Z)
    (formula : Z -> Z) (n : nat) :
  go_itype t -> in_range t from -> 0 < resolution ->
  from + resolution <= max_int t ->
  in_range t (2 * (resolution * formula from)) ->
  QuickIntegral_int t (S n) from from resolution formula
  = Some (Ok (resolution * formula from))
  /\ QuickIntegral_int int64 1 3 3 2 (fun x => x + 4) = Some (Ok 14)
  /\ QuickIntegral_f64 1 3%float 3%float 2%float (fun x => (x + 4)%float)
     = Some (Ok 14%float).
Proof.
  intros Ht Hf Hres Hmax H2. pose proof (go_itype_bits t Ht) as Hb.
  split; [|split; [reflexivity | vm_compute; reflexivity]].
  rewrite QuickIntegral_int_ordered, Z.max_id, Z.min_id.
  rewrite QuickIntegral_loop_int by assumption. cbv zeta.
  rewrite (wrap_in_range t ltac:(lia) (from + resolution))
    by (unfold in_range in *; lia).
  destruct (Z.leb_spec from (from + resolution)); [|lia].
  rewrite int_area_constant by (assumption || lia).
  rewrite wrap_add_l, Z.add_0_l by lia.
  rewrite wrap_in_range; [reflexivity | lia |].
  pose proof (modulus_half t ltac:(lia)). pose proof (half_modulus_pos t ltac:(lia)).
  unfold in_range, min_int, max_int in *. destruct (signed t); lia.
Qed.

Lemma QuickIntegral_empty_interval_witness :
  QuickIntegral_int int8 1 5 5 3 (fun x => x * 2) = Some (Ok 30).
Proof.
  apply (proj1 (QuickIntegral_empty_interval int8 5 3 (fun x => x * 2) 0
                  (or_introl eq_refl)
                  ltac:(unfold in_range; cbn; lia) ltac:(lia)
                  ltac:(cbn; lia) ltac:(unfold in_range; cbn; lia))).
Defined.

(** C10, as stated, fails where the arithmetic overflows.  On [int64] with
    [formula(from) = 2^62] the two halves of the trapezoid add up to
    [-2^63], and the result is [-2^62], not [1 * 2^62]; on [uint8] from 255
    the first step wraps to 0, so the loop walks all the way round in 256
    rounds and returns 0, not [1 * 1]. *)
Lemma QuickIntegral_empty_interval_overflow :
  in_range int64 (1 * 2 ^ 62)
  /\ QuickIntegral_int int64 1 0 0 1 (fun _ => 2 ^ 62) = Some (Ok (- 2 ^ 62))
  /\ QuickIntegral_int int64 1 0 0 1 (fun _ => 2 ^ 62) <> Some (Ok (1 * 2 ^ 62))
  /\ QuickIntegral_int uint8 255 255 255 1 (fun _ => 1) = None
  /\ QuickIntegral_int uint8 256 255 255 1 (fun _ => 1) = Some (Ok 0).
Proof.
  split; [unfold in_range; cbn; lia|].
  split; [vm_compute; reflexivity|].
  split; [vm_compute; discriminate|].
  split; vm_compute; reflexivity.
Qed.

(** On integers the code's area [(resolution*yLo + resolution*yHi) / 2] is
    the trapezoid [resolution*(yLo + yHi) / 2]. *)
Lemma trapezoid_int (t : itype) (resolution yLo yHi : Z) :
  go_itype t ->
  trapezoid (R := IntReal t) resolution yLo yHi
  = Ok (int_area t resolution yLo yHi).
Proof.
  intros Ht. pose proof (go_itype_bits t Ht) as Hb.
  unfold trapezoid, int_area. cbn [quo mul add lit IntReal].
  rewrite wrap_two by assumption. cbn [Z.eqb].
  rewrite wrap_mul_wrap_r, wrap_add_wrap by lia.
  rewrite Z.mul_add_distr_l. reflexivity.
Qed.

Lemma add_trapezoid_int (t : itype) (resolution : Z) (formula : Z -> Z)
    (sum : Z) (step : Z * Z) :
  go_itype t ->
  add_trapezoid (R := IntReal t) resolution formula (Ok sum) step
  = Ok (wrap t (sum + int_area t resolution (formula (fst step))
                        (formula (snd step)))).
Proof.
  intros Ht. unfold add_trapezoid. cbn [bind].
  rewrite trapezoid_int by assumption. reflexivity.
Qed.

Lemma integral_steps_int (t : itype) (n : nat) (to resolution xLo : Z) :
  integral_steps (R := IntReal t) (S n) to resolution xLo
  = if to <=? wrap t (xLo + resolution)
    then Some [(xLo, to)]
    else option_map (cons (xLo, wrap t (xLo + resolution)))
           (integral_steps (R := IntReal t) n to resolution
              (wrap t (xLo + resolution))).
Proof. reflexivity. Qed.

Lemma QuickIntegral_loop_refines (t : itype) (to resolution : Z)
    (formula : Z -> Z) :
  go_itype t ->
  forall (fuel : nat) (sum xLo : Z),
    QuickIntegral_loop (R := IntReal t) fuel to resolution formula sum xLo
    = option_map (sum_trapezoids (R := IntReal t) resolution formula sum)
        (integral_steps (R := IntReal t) fuel to resolution xLo).
Proof.
  intros Ht. induction fuel as [|n IH]; intros sum xLo; [reflexivity|].
  rewrite QuickIntegral_loop_int by assumption. cbv zeta.
  rewrite integral_steps_int.
  destruct (to <=? wrap t (xLo + resolution)).
  - cbn [option_map]. unfold sum_trapezoids. cbn [fold_left].
    rewrite add_trapezoid_int by assumption. reflexivity.
  - rewrite IH.
    destruct (integral_steps n to resolution (wrap t (xLo + resolution)))
      as [steps|]; [|reflexivity].
    cbn [option_map]. unfold sum_trapezoids. cbn [fold_left].
    rewrite add_trapezoid_int by assumption. reflexivity.
Qed.

(** Over a walk of [S n] whole steps a constant integrates exactly. *)
Lemma QuickIntegral_loop_constant (t : itype) (hi resolution c : Z) :
  go_itype t -> 0 < resolution -> in_range t hi ->
  in_range t (2 * (resolution * c)) ->
  forall (n : nat) (sum xLo : Z),
    min_int t <= xLo ->
    hi - xLo = resolution * Z.of_nat (S n) ->
    QuickIntegral_loop (R := IntReal t) (S n) hi resolution (fun _ => c) sum xLo
    = Some (Ok (wrap t (sum + c * (hi - xLo)))).
Proof.
  intros Ht Hres Hhi H2. pose proof (go_itype_bits t Ht) as Hb.
  induction n as [|n IH]; intros sum xLo Hx Hdist;
    rewrite QuickIntegral_loop_int by assumption; cbv zeta;
    (rewrite (wrap_in_range t ltac:(lia) (xLo + resolution))
      by (unfold in_range in *; lia));
    rewrite int_area_constant by (assumption || lia).
  - destruct (Z.leb_spec hi (xLo + resolution)); [|lia].
    do 3 f_equal. nia.
  - destruct (Z.leb_spec hi (xLo + resolution)); [lia|].
    rewrite IH by lia.
    rewrite wrap_add_l by lia. do 3 f_equal. nia.
Qed.

Lemma QuickIntegral_loop_f64_split (to resolution : float)
    (formula : float -> float) :
  forall (fuel : nat) (sum xLo : float),
    QuickIntegral_loop (R := Float64Real) fuel to resolution formula sum xLo
    = option_map (sum_split_areas (R := Float64Real) resolution formula sum)
        (integral_steps (R := Float64Real) fuel to resolution xLo).
Proof.
  induction fuel as [|n IH]; intros sum xLo; [reflexivity|].
  cbn [QuickIntegral_loop integral_steps]. unfold QuickIntegral_body.
  destruct (geb (add xLo resolution) to).
  - reflexivity.
  - cbn [quo Float64Real bind]. rewrite IH.
    destruct (integral_steps n to resolution (add xLo resolution))
      as [steps|]; reflexivity.
Qed.

(** C3 (as amended).  On every integer type [QuickIntegral] sums one
    trapezoid [resolution*(yLo + yHi)/2] per step [xHi = xLo + resolution],
    the last step clamped to [to] yet still counted at the full width
    [resolution]; on [float64] it sums
    [(resolution*yLo + resolution*yHi)/2] over the same steps.  On every
    integer type, where [from] and [to] differ, the positive resolution
    divides their distance, and [2*resolution*c] and [c*|to - from|] are
    values of the type, a constant [c] integrates exactly.
    [QuickIntegral(0, 10, 1, f)] with [f(x) = 1] is 10, on [int64] and on
    [float64]; with resolution 4 the clamped last step makes it 12. *)
Theorem QuickIntegral_trapezoids (t : itype) (fuel : nat)
    (from to resolution c : Z) (formula : Z -> Z) :
  go_itype t ->
  QuickIntegral_int t fuel from to resolution formula
  = QuickIntegral_spec (R := IntReal t) fuel from to resolution formula
  /\ (in_range t from -> in_range t to -> from <> to -> 0 < resolution ->
      (resolution | Z.abs (to - from)) ->
      in_range t (2 * (resolution * c)) ->
      in_range t (c * Z.abs (to - from)) ->
      QuickIntegral_int t (Z.to_nat (Z.abs (to - from) / resolution))
        from to resolution (fun _ => c)
      = Some (Ok (c * Z.abs (to - from))))
  /\ QuickIntegral_int int64 10 0 10 1 (fun _ => 1) = Some (Ok 10)
  /\ QuickIntegral_int int64 9 0 10 1 (fun _ => 1) = None
  /\ QuickIntegral_f64 10 0%float 10%float 1%float (fun _ => 1%float)
     = Some (Ok 10%float)
  /\ QuickIntegral_int int64 3 0 10 4 (fun _ => 1) = Some (Ok 12)
  /\ (forall (ffrom fto fresolution : float) (fformula : float -> float),
         QuickIntegral_f64 fuel ffrom fto fresolution fformula
         = QuickIntegral_spec_split (R := Float64Real) fuel ffrom fto
             fresolution fformula).
Proof.
  intros Ht. pose proof (go_itype_bits t Ht) as Hb.
  split.
  { unfold QuickIntegral_int, QuickIntegral, QuickIntegral_spec.
    destruct (gtb from to); apply QuickIntegral_loop_refines; assumption. }
  split.
  { intros Hf Hto Hne Hres [k Hk] H2 Hexact.
    rewrite QuickIntegral_int_ordered.
    assert (Z.max from to - Z.min from to = Z.abs (to - from)) as Hlen by lia.
    assert (0 < k) as Hkpos by nia.
    rewrite Hk, Z.div_mul by lia.
    replace (Z.to_nat k) with (S (Z.to_nat (k - 1))) by lia.
    rewrite (QuickIntegral_loop_constant t (Z.max from to) resolution c);
      try assumption.
    - rewrite wrap_add_l, Z.add_0_l by lia.
      rewrite Hlen, Hk in *.
      rewrite wrap_in_range; [reflexivity | lia | assumption].
    - unfold in_range in *. lia.
    - unfold in_range in *. lia.
    - rewrite Hlen, Hk, Nat2Z.inj_succ, Z2Nat.id by lia. lia. }
  do 4 (split; [vm_compute; reflexivity|]).
  intros ffrom fto fresolution fformula.
  unfold QuickIntegral_f64, QuickIntegral, QuickIntegral_spec_split.
  destruct (gtb ffrom fto); apply QuickIntegral_loop_f64_split.
Qed.

Lemma QuickIntegral_trapezoids_witness :
  QuickIntegral_int int8 (Z.to_nat (Z.abs (3 - 15) / 4)) 15 3 4 (fun _ => 5)
  = Some (Ok 60).
Proof.
  apply (proj1 (proj2 (QuickIntegral_trapezoids int8 0 15 3 4 5 (fun x => x)
                         (or_introl eq_refl)))).
  - unfold in_range; cbn; lia.
  - unfold in_range; cbn; lia.
  - lia.
  - lia.
  - exists 3. reflexivity.
  - unfold in_range; cbn; lia.
  - unfold in_range; cbn; lia.
Defined.

(** C3, as stated, fails in its second half and, on [float64], in its
    first.  Over the empty interval [3, 3], which every resolution divides,
    the constant 7 integrates to 14, not to 0.  On [int64] the constant
    [2^62] over [0, 1] with resolution 1 integrates to [-2^62], the two
    halves of the trapezoid overflowing.  On [float64] the resolution 0.1
    goes into 0.8 eight times, yet eight steps of 0.1 stay below 0.8, a
    ninth round is run, and the constant 1 integrates to about 0.9.  And on
    [float64] the area the code adds, [(0.1*0.3 + 0.1*0.7)/2], is not
    the trapezoid [0.1*(0.3 + 0.7)/2]. *)
Lemma QuickIntegral_exactness_counterexample :
  QuickIntegral_int int64 1 3 3 2 (fun _ => 7) = Some (Ok 14)
  /\ (2 | Z.abs (3 - 3)) /\ 7 * Z.abs (3 - 3) = 0
  /\ QuickIntegral_int int64 1 0 1 1 (fun _ => 2 ^ 62) = Some (Ok (- 2 ^ 62))
  /\ in_range int64 (2 ^ 62 * Z.abs (1 - 0))
  /\ PrimFloat.mul 8 (1 / 10) = (8 / 10)%float
  /\ QuickIntegral_f64 8 0%float (8 / 10)%float (1 / 10)%float
       (fun _ => 1%float) = None
  /\ (exists r : float,
         QuickIntegral_f64 9 0%float (8 / 10)%float (1 / 10)%float
           (fun _ => 1%float) = Some (Ok r)
         /\ PrimFloat.ltb (89 / 100)%float r = true)
  /\ (exists r s : float,
         QuickIntegral_f64 1 0%float (1 / 10)%float (1 / 10)%float
           (fun x => (3 / 10 + 4 * x)%float) = Some (Ok r)
         /\ QuickIntegral_spec (R := Float64Real) 1 0%float (1 / 10)%float
              (1 / 10)%float (fun x => (3 / 10 + 4 * x)%float) = Some (Ok s)
         /\ PrimFloat.ltb r s = true).
Proof.
  split; [vm_compute; reflexivity|].
  split; [exists 0; reflexivity|].
  split; [reflexivity|].
  split; [vm_compute; reflexivity|].
  split; [unfold in_range; cbn; lia|].
  split; [vm_compute; reflexivity|].
  split; [vm_compute; reflexivity|].
  split.
  - eexists. split; [vm_compute; reflexivity | vm_compute; reflexivity].
  - eexists _, _.
    split; [vm_compute; reflexivity|].
    split; [vm_compute; reflexivity | vm_compute; reflexivity].
Qed.

(** ** Further properties: elementary operations on integers *)

Lemma wrap_mul_wrap (t : itype) (a b : Z) :
  0 < bits t -> wrap t (wrap t a * wrap t b) = wrap t (a * b).
Proof.
  intros Hb. apply wrap_congr. pose proof (modulus_pos t Hb).
  rewrite Z.mul_mod, !wrap_mod, <- Z.mul_mod by lia. reflexivity.
Qed.

Lemma wrap_opp_wrap (t : itype) (a : Z) :
  0 < bits t -> wrap t (- wrap t a) = wrap t (- a).
Proof.
  intros Hb. apply wrap_congr. pose proof (modulus_pos t Hb).
  replace (- wrap t a) with (-1 * wrap t a) by lia.
  replace (- a) with (-1 * a) by lia.
  rewrite Z.mul_mod, wrap_mod, <- Z.mul_mod by lia. reflexivity.
Qed.

Lemma wrap_min_int_opp (t : itype) :
  0 < bits t -> signed t = true -> wrap t (- min_int t) = min_int t.
Proof.
  intros Hb Hs. pose proof (modulus_half t Hb) as Hm.
  pose proof (half_modulus_pos t Hb) as Hh.
  unfold wrap, min_int. rewrite Hs, Z.opp_involutive.
  rewrite Z.mod_small by lia. cbn [andb].
  destruct (Z.leb_spec (half_modulus t) (half_modulus t)); lia.
Qed.

Lemma wrap_mul_wrap_l (t : itype) (a b : Z) :
  0 < bits t -> wrap t (wrap t a * b) = wrap t (a * b).
Proof.
  intros Hb. rewrite (Z.mul_comm (wrap t a)), (Z.mul_comm a).
  apply wrap_mul_wrap_r. exact Hb.
Qed.

(** X1.  [Abs] on an integer type returns the magnitude of every value but
    one: the least value of a signed type is returned as it is, negative. *)
Theorem Abs_int_magnitude (t : itype) (val : Z) :
  go_itype t -> in_range t val ->
  (signed t = true -> val = min_int t ->
   Abs (R := IntReal t) val = val /\ Abs (R := IntReal t) val < 0)
  /\ (signed t = false \/ val <> min_int t ->
      Abs (R := IntReal t) val = Z.abs val).
Proof.
  intros Ht Hv. pose proof (go_itype_bits t Ht) as Hb.
  pose proof (modulus_half t ltac:(lia)) as Hm.
  pose proof (half_modulus_pos t ltac:(lia)) as Hh.
  unfold Abs. cbn [ltb lit neg IntReal]. rewrite wrap_zero by lia.
  split.
  - intros Hs ->. rewrite wrap_min_int_opp by (lia || assumption).
    unfold min_int. rewrite Hs.
    destruct (Z.ltb_spec (- half_modulus t) 0); lia.
  - intros Hok. destruct (Z.ltb_spec val 0) as [Hneg | Hpos]; [|lia].
    rewrite wrap_in_range; [lia | lia |].
    unfold in_range, min_int, max_int in *.
    destruct (signed t); [|lia].
    destruct Hok as [Hs | Hne]; [discriminate | lia].
Qed.

Lemma Abs_int_magnitude_witness :
  Abs (R := IntReal int8) (-128) = -128
  /\ Abs (R := IntReal int8) (-127) = 127.
Proof.
  assert (go_itype int8) as Ht by (left; reflexivity).
  split.
  - apply (proj1 (Abs_int_magnitude int8 (-128) Ht
                    ltac:(unfold in_range; cbn; lia))); reflexivity.
  - apply (proj2 (Abs_int_magnitude int8 (-127) Ht
                    ltac:(unfold in_range; cbn; lia))).
    right. cbn. lia.
Defined.

Lemma wrap_one (t : itype) : go_itype t -> wrap t 1 = 1.
Proof.
  intros Ht. pose proof (go_itype_bits t Ht) as Hb.
  apply wrap_in_range; [lia|].
  pose proof (modulus_half t ltac:(lia)) as Hm.
  assert (2 ^ 7 <= half_modulus t) as Hh.
  { unfold half_modulus. apply Z.pow_le_mono_r; unfold go_itype in Ht; lia. }
  change (2 ^ 7) with 128 in Hh.
  unfold in_range, min_int, max_int. destruct (signed t); lia.
Qed.

(** X2.  [Sign] is never 0: it is -1 below zero and 1 otherwise, at zero
    too; and [Sign(val) * Abs(val)] is [val] again for every value of an
    integer type, the least signed one included. *)
Theorem Sign_int_times_Abs (t : itype) (val : Z) :
  go_itype t -> in_range t val ->
  Sign (R := IntReal t) val = (if val <? 0 then -1 else 1)
  /\ mul (Real := IntReal t) (Sign (R := IntReal t) val)
       (Abs (R := IntReal t) val) = val.
Proof.
  intros Ht Hv. pose proof (go_itype_bits t Ht) as Hb.
  pose proof (modulus_half t ltac:(lia)) as Hm.
  pose proof (half_modulus_pos t ltac:(lia)) as Hh.
  unfold Sign, Abs. cbn [ltb lit neg mul IntReal].
  rewrite wrap_zero by lia. rewrite wrap_one by assumption.
  change (- (1)) with (-1).
  destruct (Z.ltb_spec val 0) as [Hneg | Hpos].
  - assert (signed t = true) as Hs.
    { unfold in_range, min_int in Hv. destruct (signed t); [reflexivity | lia]. }
    assert (wrap t (-1) = -1) as H1.
    { apply wrap_in_range; [lia|].
      unfold in_range, min_int, max_int. rewrite Hs. lia. }
    rewrite H1. split; [reflexivity|].
    rewrite <- H1 at 1. rewrite wrap_mul_wrap by lia.
    replace (-1 * - val) with val by lia.
    apply wrap_in_range; [lia | assumption].
  - split; [reflexivity|].
    rewrite Z.mul_1_l. apply wrap_in_range; [lia | assumption].
Qed.

Lemma Sign_int_times_Abs_witness :
  Sign (R := IntReal int8) 0 = 1
  /\ mul (Real := IntReal int8) (Sign (R := IntReal int8) (-128))
       (Abs (R := IntReal int8) (-128)) = -128.
Proof.
  assert (go_itype int8) as Ht by (left; reflexivity).
  split.
  - apply (proj1 (Sign_int_times_Abs int8 0 Ht ltac:(unfold in_range; cbn; lia))).
  - apply (proj2 (Sign_int_times_Abs int8 (-128) Ht
                    ltac:(unfold in_range; cbn; lia))).
Defined.

(** X3.  [Clamp] on integers: with [min <= max] the result lies in
    [min, max], is [val] itself when [val] lies there, and clamping twice
    changes nothing; with the bounds crossed ([max < min]) the result is
    never [val] but [min] below [min] and [max] otherwise. *)
Theorem Clamp_int_bounds (t : itype) (lo val hi : Z) :
  (lo <= hi ->
   lo <= Clamp (R := IntReal t) lo val hi <= hi
   /\ (lo <= val <= hi -> Clamp (R := IntReal t) lo val hi = val)
   /\ Clamp (R := IntReal t) lo (Clamp (R := IntReal t) lo val hi) hi
      = Clamp (R := IntReal t) lo val hi)
  /\ (hi < lo ->
      Clamp (R := IntReal t) lo val hi = if val <? lo then lo else hi).
Proof.
  unfold Clamp, gtb. cbn [ltb IntReal].
  split.
  - intros Hle.
    destruct (Z.ltb_spec val lo), (Z.ltb_spec hi val);
      repeat split; try lia;
      repeat match goal with
      | |- context [?a <? ?b] => destruct (Z.ltb_spec a b)
      end; lia.
  - intros Hlt.
    destruct (Z.ltb_spec val lo), (Z.ltb_spec hi val); lia.
Qed.

Lemma Clamp_int_bounds_witness :
  Clamp (R := IntReal int64) 0 15 10 = 10
  /\ Clamp (R := IntReal int64) 10 5 0 = 10
  /\ Clamp (R := IntReal int64) 10 20 0 = 0.
Proof.
  split; [|split].
  - pose proof (proj1 (Clamp_int_bounds int64 0 15 10) ltac:(lia)) as [H _].
    reflexivity.
  - apply (proj2 (Clamp_int_bounds int64 10 5 0)). lia.
  - apply (proj2 (Clamp_int_bounds int64 10 20 0)). lia.
Defined.

(** ** Further properties: modulo and decomposition *)

(** X4.  Against the language's own remainder [%] (truncated, with the sign
    of the dividend): [IMod(val, div)] is [val % div] for a positive divisor
    and its opposite for a negative one, and its magnitude stays below the
    divisor's. *)
Theorem IMod_int_native_remainder (t : itype) (val div : Z) :
  go_itype t -> in_range t val -> in_range t div -> div <> 0 ->
  abs_fits t val -> abs_fits t div ->
  exists m : Z,
    IMod_int t val div = Ok m
    /\ m = (if div <? 0 then - Z.rem val div else Z.rem val div)
    /\ Z.abs m < Z.abs div
    /\ (0 < div -> m = Z.rem val div).
Proof.
  intros Ht Hv Hd Hnz Hfv Hfd.
  exists (sign_rule_mod val div).
  split; [apply IMod_int_rule; assumption|].
  rewrite sign_rule_mod_rem by assumption.
  pose proof (Z.rem_bound_abs val div Hnz) as Hb.
  repeat split.
  - destruct (div <? 0); lia.
  - intros Hpos. destruct (Z.ltb_spec div 0); [lia | reflexivity].
Qed.

Lemma IMod_int_native_remainder_witness :
  exists m : Z,
    IMod_int int16 (-100) (-7) = Ok m
    /\ m = (if -7 <? 0 then - Z.rem (-100) (-7) else Z.rem (-100) (-7))
    /\ Z.abs m < Z.abs (-7)
    /\ (0 < -7 -> m = Z.rem (-100) (-7)).
Proof.
  apply (IMod_int_native_remainder int16 (-100) (-7)).
  - right; left; reflexivity.
  - unfold in_range; cbn; lia.
  - unfold in_range; cbn; lia.
  - lia.
  - right. cbn. lia.
  - right. cbn. lia.
Defined.

(** X5.  The two parts of [IWholeRem] add up to the value again, in the
    type's own arithmetic; short of overflow, [rem] is the remainder
    [value % mod] only when [mod] is 1 or the quotient is 0
    ([|value| < |mod|]). *)
Theorem IWholeRem_parts (t : itype) (value mod_ : Z) :
  go_itype t -> in_range t value -> in_range t mod_ -> mod_ <> 0 ->
  exists whole rem : Z,
    IWholeRem_int t value mod_ = Ok (whole, rem)
    /\ add (Real := IntReal t) whole rem = value
    /\ (value <> min_int t \/ mod_ <> -1 ->
        in_range t (value - value ÷ mod_) ->
        (rem = Z.rem value mod_ <-> mod_ = 1 \/ Z.abs value < Z.abs mod_)).
Proof.
  intros Ht Hv Hm Hnz. pose proof (go_itype_bits t Ht) as Hb.
  exists (wrap t (value ÷ mod_)), (wrap t (value - wrap t (value ÷ mod_))).
  split.
  { unfold IWholeRem_int, IWholeRem. cbn [quo sub IntReal].
    destruct (Z.eqb_spec mod_ 0); [contradiction | reflexivity]. }
  split.
  - cbn [add IntReal].
    rewrite Z.add_comm, wrap_add_l by lia.
    replace (value - wrap t (value ÷ mod_) + wrap t (value ÷ mod_))
      with value by lia.
    apply wrap_in_range; [lia | assumption].
  - intros Hov Hr.
    rewrite (wrap_in_range t ltac:(lia) (value ÷ mod_))
      by (apply quot_in_range; assumption || lia).
    rewrite (wrap_in_range t ltac:(lia) _ Hr).
    pose proof (Z.quot_rem' value mod_) as Hqr.
    rewrite <- (Z.quot_small_iff value mod_ Hnz).
    split; [intros Hx | intros [-> | H0]].
    + assert ((value ÷ mod_) * (mod_ - 1) = 0) as Hz by nia.
      apply Z.mul_eq_0 in Hz. lia.
    + rewrite Z.quot_1_r, Z.rem_1_r. lia.
    + rewrite H0 in *. lia.
Qed.

Lemma IWholeRem_parts_witness :
  exists whole rem : Z,
    IWholeRem_int int8 100 3 = Ok (whole, rem)
    /\ add (Real := IntReal int8) whole rem = 100
    /\ (100 <> min_int int8 \/ 3 <> -1 ->
        in_range int8 (100 - 100 ÷ 3) ->
        (rem = Z.rem 100 3 <-> 3 = 1 \/ Z.abs 100 < Z.abs 3)).
Proof.
  apply (IWholeRem_parts int8 100 3).
  - left; reflexivity.
  - unfold in_range; cbn; lia.
  - unfold in_range; cbn; lia.
  - lia.
Defined.

(** ** Further properties: derivative and integral estimates *)

Lemma wrap_quot_zero (t : itype) (a b : Z) :
  0 < bits t -> in_range t a -> in_range t b -> b <> 0 ->
  (wrap t (a ÷ b) = 0 <-> a ÷ b = 0).
Proof.
  intros Hbits Ha Hb Hnz.
  pose proof (modulus_half t Hbits) as Hm.
  pose proof (half_modulus_pos t Hbits) as Hh.
  destruct (Z.eq_dec a (min_int t)) as [Hmin | Hmin];
    [destruct (Z.eq_dec b (-1)) as [Hb1 | Hb1]|].
  - subst. change (-1) with (- (1)).
    rewrite Z.quot_opp_r, Z.quot_1_r by lia.
    unfold min_int in *. destruct (signed t) eqn:Hs.
    + pose proof (wrap_min_int_opp t Hbits Hs) as Hw.
      unfold min_int in Hw. rewrite Hs in Hw. rewrite Hw. lia.
    + rewrite wrap_in_range; [reflexivity | assumption |].
      unfold in_range, min_int, max_int. rewrite Hs. lia.
  - rewrite wrap_in_range; [reflexivity | assumption |].
    apply quot_in_range; auto.
  - rewrite wrap_in_range; [reflexivity | assumption |].
    apply quot_in_range; auto.
Qed.

(** X6.  On an integer type, where the two sample points do not overflow,
    [QuickDerivative] panics with a division by zero exactly when [at] and
    [resolution] are equal (then [xLo] is 0) or have opposite signs (then
    the ratio [xHi / xLo] truncates to 0), whatever the formula is. *)
Theorem QuickDerivative_int_panics (t : itype) (at_ resolution : Z)
    (formula : Z -> Z) :
  go_itype t ->
  in_range t (at_ + resolution) -> in_range t (at_ - resolution) ->
  (QuickDerivative_int t at_ resolution formula = DivideByZero
   <-> at_ = resolution \/ at_ * resolution < 0).
Proof.
  intros Ht Hhi Hlo. pose proof (go_itype_bits t Ht) as Hb.
  unfold QuickDerivative_int, QuickDerivative.
  cbn [add sub quo IntReal].
  rewrite (wrap_in_range t ltac:(lia) _ Hhi), (wrap_in_range t ltac:(lia) _ Hlo).
  destruct (Z.eqb_spec (at_ - resolution) 0) as [H0 | H0]; cbn [bind].
  - split; [intros _; left; lia | reflexivity].
  - pose proof (wrap_quot_zero t (at_ + resolution) (at_ - resolution)
                  ltac:(lia) Hhi Hlo H0) as Hwz.
    pose proof (Z.quot_small_iff (at_ + resolution) (at_ - resolution) H0) as Hsm.
    destruct (Z.eqb_spec (wrap t ((at_ + resolution) ÷ (at_ - resolution))) 0)
      as [Hd | Hd].
    + split; [intros _ | reflexivity].
      right. apply Hwz in Hd. apply Hsm in Hd. nia.
    + split; [discriminate|].
      intros [Heq | Hopp]; [lia|].
      exfalso. apply Hd, Hwz, Hsm. nia.
Qed.

Lemma QuickDerivative_int_panics_witness :
  QuickDerivative_int int64 (-5) 1 (fun x => x) = DivideByZero.
Proof.
  apply (proj2 (QuickDerivative_int_panics int64 (-5) 1 (fun x => x)
                  (or_intror (or_intror (or_intror eq_refl)))
                  ltac:(unfold in_range; cbn; lia)
                  ltac:(unfold in_range; cbn; lia))).
  right. lia.
Defined.

(** As long as [n] steps do not reach the upper bound, [n] rounds do not
    end the loop. *)
Lemma QuickIntegral_loop_short (t : itype) (hi resolution : Z)
    (formula : Z -> Z) :
  go_itype t -> 0 <= resolution -> in_range t hi ->
  forall (n : nat) (sum xLo : Z),
    min_int t <= xLo ->
    resolution * Z.of_nat n < hi - xLo ->
    QuickIntegral_loop (R := IntReal t) n hi resolution formula sum xLo = None.
Proof.
  intros Ht Hres Hhi. pose proof (go_itype_bits t Ht) as Hb.
  induction n as [|n IH]; intros sum xLo Hx Hdist; [reflexivity|].
  rewrite QuickIntegral_loop_int by assumption. cbv zeta.
  rewrite (wrap_in_range t ltac:(lia) (xLo + resolution))
    by (unfold in_range in *; lia).
  destruct (Z.leb_spec hi (xLo + resolution)); [lia|].
  apply IH; lia.
Qed.

(** Once [S n] steps reach the upper bound, [S n] rounds end the loop. *)
Lemma QuickIntegral_loop_enough (t : itype) (hi resolution : Z)
    (formula : Z -> Z) :
  go_itype t -> 0 < resolution -> in_range t hi ->
  hi + resolution <= max_int t ->
  forall (n : nat) (sum xLo : Z),
    min_int t <= xLo <= hi ->
    hi - xLo <= resolution * Z.of_nat (S n) ->
    exists r : Z,
      QuickIntegral_loop (R := IntReal t) (S n) hi resolution formula sum xLo
      = Some (Ok r).
Proof.
  intros Ht Hres Hhi Hmax. pose proof (go_itype_bits t Ht) as Hb.
  induction n as [|n IH]; intros sum xLo Hx Hdist;
    rewrite QuickIntegral_loop_int by assumption; cbv zeta;
    (rewrite (wrap_in_range t ltac:(lia) (xLo + resolution))
      by (unfold in_range in *; lia)).
  - destruct (Z.leb_spec hi (xLo + resolution)); [eauto | lia].
  - destruct (Z.leb_spec hi (xLo + resolution)); [eauto|].
    apply IH; lia.
Qed.

Lemma integral_rounds_bounds (lo hi resolution : Z) :
  lo <= hi -> 0 < resolution ->
  1 <= integral_rounds lo hi resolution
  /\ hi - lo <= resolution * integral_rounds lo hi resolution
  /\ resolution * (integral_rounds lo hi resolution - 1) < hi - lo
     \/ (1 = integral_rounds lo hi resolution /\ hi - lo <= resolution
         /\ hi = lo).
Proof.
  intros Hle Hres. unfold integral_rounds.
  pose proof (Z.mul_div_le (hi - lo + resolution - 1) resolution Hres) as H1.
  pose proof (Z.mul_succ_div_gt (hi - lo + resolution - 1) resolution Hres) as H2.
  destruct (Z.eq_dec hi lo) as [-> | Hne].
  - right. replace (lo - lo + resolution - 1) with (resolution - 1) by lia.
    rewrite Z.div_small by lia. lia.
  - left.
    assert (1 <= (hi - lo + resolution - 1) / resolution) as Hq.
    { apply Z.div_le_lower_bound; lia. }
    rewrite Z.max_r by lia. lia.
Qed.

(** X7.  With a positive resolution and no overflow past the greater bound,
    the body of [QuickIntegral]'s loop runs exactly
    [max(1, ceil((hi - lo) / resolution))] times, whatever the formula:
    fewer rounds do not end it, that many do, and more change nothing. *)
Theorem QuickIntegral_rounds (t : itype) (from to resolution : Z)
    (formula : Z -> Z) :
  go_itype t -> in_range t from -> in_range t to ->
  0 < resolution -> Z.max from to + resolution <= max_int t ->
  let rounds :=
    Z.to_nat (integral_rounds (Z.min from to) (Z.max from to) resolution) in
  (forall fuel : nat,
      (fuel < rounds)%nat ->
      QuickIntegral_int t fuel from to resolution formula = None)
  /\ (exists r : Z,
         forall k : nat,
           QuickIntegral_int t (rounds + k) from to resolution formula
           = Some (Ok r)).
Proof.
  intros Ht Hf Hto Hres Hmax rounds.
  set (lo := Z.min from to) in *. set (hi := Z.max from to) in *.
  assert (in_range t hi) as Hhi by (unfold in_range, hi in *; lia).
  assert (min_int t <= lo <= hi) as Hlo by (unfold in_range, lo, hi in *; lia).
  pose proof (integral_rounds_bounds lo hi resolution ltac:(lia) Hres) as Hr.
  split.
  - intros fuel Hfuel. rewrite QuickIntegral_int_ordered. fold lo hi.
    destruct fuel as [|fuel]; [reflexivity|].
    apply QuickIntegral_loop_short; try assumption; try lia.
    unfold rounds in Hfuel.
    destruct Hr as [(H1 & H2 & H3) | (H1 & H2 & H3)]; [|lia].
    assert (Z.of_nat (S fuel) <= integral_rounds lo hi resolution - 1) as Hle
      by lia.
    apply (Z.mul_le_mono_nonneg_l _ _ resolution) in Hle; lia.
  - assert (exists n : nat, rounds = S n
              /\ hi - lo <= resolution * Z.of_nat (S n)) as (n & Hn & Hdist).
    { exists (Z.to_nat (integral_rounds lo hi resolution - 1)).
      unfold rounds. split; [lia|].
      destruct Hr as [(H1 & H2 & H3) | (H1 & H2 & H3)];
        rewrite Nat2Z.inj_succ, Z2Nat.id by lia; nia. }
    destruct (QuickIntegral_loop_enough t hi resolution formula Ht Hres Hhi Hmax
                n (wrap t 0) lo Hlo Hdist) as [r Hr'].
    exists r. intros k. rewrite QuickIntegral_int_ordered. fold lo hi.
    rewrite Hn. apply QuickIntegral_loop_fuel. exact Hr'.
Qed.

Lemma QuickIntegral_rounds_witness :
  (forall fuel : nat,
      (fuel < 3)%nat ->
      QuickIntegral_int int64 fuel 10 0 4 (fun x => x * x) = None)
  /\ (exists r : Z,
         forall k : nat,
           QuickIntegral_int int64 (3 + k) 10 0 4 (fun x => x * x)
           = Some (Ok r)).
Proof.
  apply (QuickIntegral_rounds int64 10 0 4 (fun x => x * x)).
  - right; right; right; reflexivity.
  - unfold in_range; cbn; lia.
  - unfold in_range; cbn; lia.
  - lia.
  - cbn. lia.
Defined.

Lemma QuickIntegral_loop_constant_rounds (t : itype) (hi resolution c : Z) :
  go_itype t -> 0 < resolution -> in_range t hi ->
  hi + resolution <= max_int t ->
  in_range t (2 * (resolution * c)) ->
  forall (n : nat) (sum xLo : Z),
    min_int t <= xLo <= hi ->
    hi - xLo <= resolution * Z.of_nat (S n) ->
    n = O \/ resolution * Z.of_nat n < hi - xLo ->
    QuickIntegral_loop (R := IntReal t) (S n) hi resolution (fun _ => c) sum xLo
    = Some (Ok (wrap t (sum + c * resolution * Z.of_nat (S n)))).
Proof.
  intros Ht Hres Hhi Hmax H2. pose proof (go_itype_bits t Ht) as Hb.
  induction n as [|n IH]; intros sum xLo Hx Hdist Hlow;
    rewrite QuickIntegral_loop_int by assumption; cbv zeta;
    (rewrite (wrap_in_range t ltac:(lia) (xLo + resolution))
      by (unfold in_range in *; lia));
    rewrite int_area_constant by (assumption || lia).
  - destruct (Z.leb_spec hi (xLo + resolution)); [|lia].
    do 3 f_equal. lia.
  - destruct (Z.leb_spec hi (xLo + resolution)); [lia|].
    rewrite IH by lia.
    rewrite wrap_add_l by lia. do 3 f_equal. lia.
Qed.

(** X8.  For a constant formula [c] the result is
    [c * resolution * rounds], the full width counted in every round: it is
    [c * (hi - lo)] only when the resolution divides a non-empty interval,
    and more than that in magnitude otherwise. *)
Theorem QuickIntegral_constant (t : itype) (from to resolution c : Z) (k : nat) :
  go_itype t -> in_range t from -> in_range t to ->
  0 < resolution -> Z.max from to + resolution <= max_int t ->
  in_range t (2 * (resolution * c)) ->
  let lo := Z.min from to in
  let hi := Z.max from to in
  let rounds := integral_rounds lo hi resolution in
  QuickIntegral_int t (Z.to_nat rounds + k) from to resolution (fun _ => c)
  = Some (Ok (wrap t (c * resolution * rounds)))
  /\ hi - lo <= resolution * rounds
  /\ (resolution * rounds = hi - lo
      <-> lo < hi /\ (resolution | hi - lo)).
Proof.
  intros Ht Hf Hto Hres Hmax H2 lo hi rounds.
  pose proof (go_itype_bits t Ht) as Hb.
  assert (in_range t hi) as Hhi by (unfold in_range, hi in *; lia).
  assert (min_int t <= lo <= hi) as Hlo by (unfold in_range, lo, hi in *; lia).
  pose proof (integral_rounds_bounds lo hi resolution ltac:(lia) Hres) as Hr.
  fold rounds in Hr.
  split; [|split].
  - rewrite QuickIntegral_int_ordered. fold lo hi.
    apply QuickIntegral_loop_fuel.
    replace (Z.to_nat rounds) with (S (Z.to_nat (rounds - 1))) by lia.
    rewrite (QuickIntegral_loop_constant_rounds t hi resolution c);
      try assumption.
    + rewrite wrap_add_l, Z.add_0_l by lia.
      rewrite Nat2Z.inj_succ, Z2Nat.id by lia.
      do 3 f_equal. lia.
    + rewrite Nat2Z.inj_succ, Z2Nat.id by lia. nia.
    + destruct Hr as [(H1 & H3 & H4) | (H1 & H3 & H4)].
      * right. rewrite Z2Nat.id by lia. lia.
      * left. lia.
  - destruct Hr as [(H1 & H3 & H4) | (H1 & H3 & H4)]; nia.
  - split.
    + intros Heq. split.
      * destruct Hr as [(H1 & H3 & H4) | (H1 & H3 & H4)]; nia.
      * exists rounds. lia.
    + intros [Hlt [q Hq]].
      destruct Hr as [(H1 & H3 & H4) | (H1 & H3 & H4)]; [|lia].
      rewrite Hq in *.
      assert (rounds - 1 < q) by nia.
      assert (q <= rounds) by nia.
      assert (q = rounds) by lia. subst q. lia.
Qed.

Lemma QuickIntegral_constant_witness :
  QuickIntegral_int int64 3 0 10 4 (fun _ => 5) = Some (Ok 60)
  /\ 10 - 0 <= 4 * 3.
Proof.
  pose proof (QuickIntegral_constant int64 0 10 4 5 0
                (or_intror (or_intror (or_intror eq_refl)))
                ltac:(unfold in_range; cbn; lia)
                ltac:(unfold in_range; cbn; lia)
                ltac:(lia) ltac:(cbn; lia)
                ltac:(unfold in_range; cbn; lia)) as (H1 & H2 & _).
  split; [exact H1 | exact H2].
Defined.

(** X9.  With resolution 0 and two distinct bounds [QuickIntegral] never
    returns, on any integer type, whatever the formula: no number of rounds
    ends the loop. *)
Theorem QuickIntegral_zero_resolution (t : itype) (from to : Z)
    (formula : Z -> Z) (fuel : nat) :
  go_itype t -> in_range t from -> in_range t to -> from <> to ->
  QuickIntegral_int t fuel from to 0 formula = None.
Proof.
  intros Ht Hf Hto Hne.
  rewrite QuickIntegral_int_ordered.
  apply QuickIntegral_loop_short; try assumption.
  - lia.
  - unfold in_range in *. lia.
  - unfold in_range in *. lia.
  - lia.
Qed.

Lemma QuickIntegral_zero_resolution_witness :
  QuickIntegral_int uint8 1000 7 3 0 (fun x => x + 1) = None.
Proof.
  apply (QuickIntegral_zero_resolution uint8 7 3 (fun x => x + 1) 1000).
  - left; reflexivity.
  - unfold in_range; cbn; lia.
  - unfold in_range; cbn; lia.
  - lia.
Defined.

(** ** Further properties: NaN on [float64] *)

Lemma f64_ltb_nan_l (x : float) : PrimFloat.ltb PrimFloat.nan x = false.
Proof. rewrite ltb_spec. reflexivity. Qed.

Lemma f64_ltb_nan_r (x : float) : PrimFloat.ltb x PrimFloat.nan = false.
Proof.
  rewrite ltb_spec. change (Prim2SF PrimFloat.nan) with S754_nan.
  destruct (Prim2SF x); reflexivity.
Qed.

Lemma f64_leb_nan_l (x : float) : PrimFloat.leb PrimFloat.nan x = false.
Proof. rewrite leb_spec. reflexivity. Qed.

Lemma f64_leb_nan_r (x : float) : PrimFloat.leb x PrimFloat.nan = false.
Proof.
  rewrite leb_spec. change (Prim2SF PrimFloat.nan) with S754_nan.
  destruct (Prim2SF x); reflexivity.
Qed.

Lemma f64_add_nan_l (x : float) : PrimFloat.add PrimFloat.nan x = PrimFloat.nan.
Proof. apply Prim2SF_inj. rewrite add_spec. reflexivity. Qed.

Lemma f64_add_nan_r (x : float) : PrimFloat.add x PrimFloat.nan = PrimFloat.nan.
Proof.
  apply Prim2SF_inj. rewrite add_spec.
  change (Prim2SF PrimFloat.nan) with S754_nan.
  destruct (Prim2SF x); reflexivity.
Qed.

(** X10.  [Min] and [Max] on [float64] return their second argument
    whenever an argument is NaN: NaN as the first argument is dropped, NaN as
    the second is returned. *)
Theorem Min_Max_f64_nan (x : float) :
  Min (R := Float64Real) PrimFloat.nan x = x
  /\ Min (R := Float64Real) x PrimFloat.nan = PrimFloat.nan
  /\ Max (R := Float64Real) PrimFloat.nan x = x
  /\ Max (R := Float64Real) x PrimFloat.nan = PrimFloat.nan.
Proof.
  unfold Min, Max, gtb. cbn [ltb Float64Real].
  rewrite f64_ltb_nan_l, f64_ltb_nan_r. repeat split.
Qed.

(** X11.  [Clamp] on [float64] lets a NaN value through, whatever the
    bounds, and NaN bounds clamp nothing. *)
Theorem Clamp_f64_nan (lo val hi : float) :
  Clamp (R := Float64Real) lo PrimFloat.nan hi = PrimFloat.nan
  /\ Clamp (R := Float64Real) PrimFloat.nan val PrimFloat.nan = val.
Proof.
  unfold Clamp, gtb. cbn [ltb Float64Real].
  rewrite !f64_ltb_nan_l, !f64_ltb_nan_r. split; reflexivity.
Qed.

(** X12.  On [float64] a range with a NaN end point overlaps nothing:
    [RangesOverlap] is false and [CombineRangesIfOverlap] returns
    [(false, 0, 0)]. *)
Theorem RangesOverlap_f64_nan (startA endA startB endB : float) :
  startA = PrimFloat.nan \/ endA = PrimFloat.nan
  \/ startB = PrimFloat.nan \/ endB = PrimFloat.nan ->
  RangesOverlap (R := Float64Real) startA endA startB endB = false
  /\ CombineRangesIfOverlap (R := Float64Real) startA endA startB endB
     = (false, 0%float, 0%float).
Proof.
  intros Hnan.
  assert (RangesOverlap (R := Float64Real) startA endA startB endB = false)
    as Hno.
  { unfold RangesOverlap. cbn [leb Float64Real].
    destruct Hnan as [-> | [-> | [-> | ->]]];
      rewrite ?f64_leb_nan_l, ?f64_leb_nan_r, ?andb_false_r; reflexivity. }
  split; [exact Hno|].
  unfold CombineRangesIfOverlap. rewrite Hno. reflexivity.
Qed.

Lemma RangesOverlap_f64_nan_witness :
  RangesOverlap (R := Float64Real) 0%float PrimFloat.nan 0%float 1%float = false.
Proof.
  apply (proj1 (RangesOverlap_f64_nan 0%float PrimFloat.nan 0%float 1%float
                  (or_intror (or_introl eq_refl)))).
Defined.

Lemma QuickIntegral_loop_f64_nan_to (resolution : float)
    (formula : float -> float) (fuel : nat) :
  forall sum xLo : float,
    QuickIntegral_loop (R := Float64Real) fuel PrimFloat.nan resolution formula
      sum xLo = None.
Proof.
  induction fuel as [|n IH]; intros sum xLo; [reflexivity|].
  cbn [QuickIntegral_loop]. unfold QuickIntegral_body, geb.
  cbn [leb add mul quo lit bind Float64Real].
  rewrite f64_leb_nan_l. apply IH.
Qed.

Lemma QuickIntegral_loop_f64_nan_step (to resolution : float)
    (formula : float -> float) (fuel : nat) :
  forall sum xLo : float,
    resolution = PrimFloat.nan \/ xLo = PrimFloat.nan ->
    QuickIntegral_loop (R := Float64Real) fuel to resolution formula sum xLo
    = None.
Proof.
  induction fuel as [|n IH]; intros sum xLo Hnan; [reflexivity|].
  cbn [QuickIntegral_loop]. unfold QuickIntegral_body, geb.
  cbn [leb add mul quo lit bind Float64Real].
  assert (PrimFloat.add xLo resolution = PrimFloat.nan) as ->.
  { destruct Hnan as [-> | ->];
      [apply f64_add_nan_r | apply f64_add_nan_l]. }
  rewrite f64_leb_nan_r. apply IH. right. reflexivity.
Qed.

(** X13.  On [float64], [QuickIntegral] never returns when a bound or the
    resolution is NaN: every comparison [xHi >= to] then fails, so no
    number of rounds ends the loop. *)
Theorem QuickIntegral_f64_nan (fuel : nat) (from to resolution : float)
    (formula : float -> float) :
  from = PrimFloat.nan \/ to = PrimFloat.nan \/ resolution = PrimFloat.nan ->
  QuickIntegral_f64 fuel from to resolution formula = None.
Proof.
  intros Hnan. unfold QuickIntegral_f64, QuickIntegral, gtb.
  cbn [ltb lit Float64Real].
  destruct Hnan as [-> | [-> | ->]].
  - rewrite f64_ltb_nan_r.
    apply QuickIntegral_loop_f64_nan_step. right. reflexivity.
  - rewrite f64_ltb_nan_l. apply QuickIntegral_loop_f64_nan_to.
  - destruct (PrimFloat.ltb to from);
      apply QuickIntegral_loop_f64_nan_step; left; reflexivity.
Qed.

Lemma QuickIntegral_f64_nan_witness :
  QuickIntegral_f64 100 0%float PrimFloat.nan 1%float (fun x => x) = None.
Proof.
  apply (QuickIntegral_f64_nan 100 0%float PrimFloat.nan 1%float (fun x => x)).
  right. left. reflexivity.
Defined.

(** X14.  [FMod] on [float64] guards no special value: a NaN or infinite
    [val], or a NaN [div], gives the NaN of [math.Mod], whatever the other
    operand is. *)
Theorem FMod_f64_special (val div : float) :
  val = PrimFloat.nan \/ val = PrimFloat.infinity
  \/ val = PrimFloat.neg_infinity \/ div = PrimFloat.nan ->
  FMod_f64 val div = PrimFloat.nan.
Proof.
  intros Hsp. rewrite FMod_f64_rule. unfold f64_sign_rule_mod, math_Mod.
  destruct Hsp as [-> | [-> | [-> | ->]]].
  - change (PrimFloat.ltb PrimFloat.nan 0) with false. cbv iota.
    change (PrimFloat.is_nan PrimFloat.nan) with true.
    change (PrimFloat.is_infinity PrimFloat.nan) with false.
    rewrite orb_false_r, orb_true_r. cbn [orb xorb].
    destruct (PrimFloat.ltb div 0); reflexivity.
  - change (PrimFloat.ltb PrimFloat.infinity 0) with false. cbv iota.
    change (PrimFloat.is_infinity PrimFloat.infinity) with true.
    rewrite orb_true_r. cbn [orb xorb].
    destruct (PrimFloat.ltb div 0); reflexivity.
  - change (PrimFloat.ltb PrimFloat.neg_infinity 0) with true. cbv iota.
    change (PrimFloat.is_infinity (- PrimFloat.neg_infinity)) with true.
    rewrite orb_true_r. cbn [orb xorb].
    destruct (PrimFloat.ltb div 0); reflexivity.
  - change (PrimFloat.ltb PrimFloat.nan 0) with false. cbv iota.
    change (PrimFloat.is_nan PrimFloat.nan) with true.
    rewrite orb_true_r. rewrite xorb_false_r.
    destruct (PrimFloat.ltb val 0); reflexivity.
Qed.

Lemma FMod_f64_special_witness :
  FMod_f64 PrimFloat.neg_infinity 3%float = PrimFloat.nan.
Proof.
  apply (FMod_f64_special PrimFloat.neg_infinity 3%float).
  right. right. left. reflexivity.
Defined.

(** ** Further properties: special values, constants, powers, ranges *)

(** X15.  Each constructor's bit pattern denotes what its name says: the
    signalling NaNs have the quiet bit clear and the quiet ones have it set,
    all four with payload 1; the infinities have an empty fraction.  The
    32-bit NaNs carry the sign bit, the 64-bit NaNs do not.  The 64-bit
    infinities are the infinities of the arithmetic. *)
Theorem special_values_decode :
  float32_value SNaN32 = IeeeSNaN true 1
  /\ float32_value QNaN32 = IeeeQNaN true 1
  /\ float32_value PInf32 = IeeeInf false
  /\ float32_value NInf32 = IeeeInf true
  /\ float64_value SNaN64 = IeeeSNaN false 1
  /\ float64_value QNaN64 = IeeeQNaN false 1
  /\ float64_value PInf64 = IeeeInf false
  /\ float64_value NInf64 = IeeeInf true
  /\ float64_prim PInf64 = PrimFloat.infinity
  /\ float64_prim NInf64 = PrimFloat.neg_infinity
  /\ float64_prim SNaN64 = PrimFloat.nan
  /\ float64_prim QNaN64 = PrimFloat.nan.
Proof. repeat split; vm_compute; reflexivity. Qed.

(** X16.  The word-size constants: for a [uint] of 32 or of 64 bits
    [WORD_BITS] is that width and [WORD_BYTES] its byte count, and
    [MAX_UINTPTR] is the greatest value of the unsigned type of that
    width. *)
Theorem word_size_constants (w : Z) :
  w = 32 \/ w = 64 ->
  WORD_BITS w = w /\ WORD_BYTES w = w / 8
  /\ PTR_BITS w = w /\ PTR_BYTES w = w / 8
  /\ MAX_UINTPTR w = max_int (IType false w).
Proof. intros [-> | ->]; repeat split. Qed.

Lemma word_size_constants_witness :
  WORD_BITS 32 = 32 /\ WORD_BYTES 32 = 32 / 8
  /\ PTR_BITS 32 = 32 /\ PTR_BYTES 32 = 32 / 8
  /\ MAX_UINTPTR 32 = max_int (IType false 32).
Proof. apply (word_size_constants 32). left. reflexivity. Defined.

(** X17.  Under wrap-around [Square] is even and [Cube] is odd:
    [Square(-val) = Square(val)] and [Cube(-val) = -Cube(val)] for every
    value, overflow or not; and where [val * val] is a value of the type,
    [Square(val)] is that product, hence not negative. *)
Theorem Square_Cube_parity (t : itype) (val : Z) :
  go_itype t ->
  Square (R := IntReal t) (neg (Real := IntReal t) val)
  = Square (R := IntReal t) val
  /\ Cube (R := IntReal t) (neg (Real := IntReal t) val)
     = neg (Real := IntReal t) (Cube (R := IntReal t) val)
  /\ (in_range t (val * val) ->
      Square (R := IntReal t) val = val * val
      /\ 0 <= Square (R := IntReal t) val).
Proof.
  intros Ht. pose proof (go_itype_bits t Ht) as Hb.
  unfold Square, Cube. cbn [mul neg IntReal].
  split; [|split].
  - rewrite wrap_mul_wrap by lia. f_equal. lia.
  - rewrite (wrap_mul_wrap t (- val) (- val)) by lia.
    rewrite (wrap_mul_wrap t (- val * - val) (- val)) by lia.
    rewrite wrap_opp_wrap by lia.
    replace (- (wrap t (val * val) * val)) with (wrap t (val * val) * - val)
      by lia.
    rewrite wrap_mul_wrap_l by lia. f_equal. lia.
  - intros Hr. rewrite wrap_in_range by (lia || assumption). nia.
Qed.

Lemma Square_Cube_parity_witness :
  Square (R := IntReal int8) (neg (Real := IntReal int8) 100)
  = Square (R := IntReal int8) 100
  /\ Cube (R := IntReal int8) (neg (Real := IntReal int8) 100)
     = neg (Real := IntReal int8) (Cube (R := IntReal int8) 100).
Proof.
  pose proof (Square_Cube_parity int8 100 (or_introl eq_refl)) as (H1 & H2 & _).
  split; [exact H1 | exact H2].
Defined.

(** X18.  On an integer type the exponent [1/root] of [Root] is an integer
    quotient: a zero [root] panics with a division by zero, and every
    [root] other than 1 and -1 gives the exponent 0, so [Root] is then
    [Pow(val, 0)] and extracts no root, whatever [math.Pow] and the
    conversions do. *)
Theorem Root_int_exponent (t : itype) (conv : ConvFloat64 Z)
    (math_Pow : float -> float -> float) (val root : Z) :
  go_itype t -> in_range t root ->
  Root (R := IntReal t) math_Pow (C := conv) val root
  = if root =? 0 then DivideByZero
    else if root =? 1 then Ok (Pow math_Pow (C := conv) val 1)
    else if root =? -1
         then Ok (Pow math_Pow (C := conv) val (-1))
         else Ok (Pow math_Pow (C := conv) val 0).
Proof.
  intros Ht Hr. pose proof (go_itype_bits t Ht) as Hb.
  unfold Root. cbn [quo lit IntReal]. rewrite wrap_one by assumption.
  destruct (Z.eqb_spec root 0) as [H0 | H0]; [reflexivity|].
  cbn [bind].
  destruct (Z.eqb_spec root 1) as [-> | H1].
  { rewrite Z.quot_1_r, wrap_one by assumption. reflexivity. }
  destruct (Z.eqb_spec root (-1)) as [-> | Hm1].
  { change (1 ÷ -1) with (-1).
    rewrite (wrap_in_range t ltac:(lia) (-1) Hr). reflexivity. }
  assert (1 ÷ root = 0) as -> by (apply Z.quot_small_iff; lia).
  rewrite wrap_zero by lia. reflexivity.
Qed.

Lemma Root_int_exponent_witness :
  Root (R := IntReal int64) (fun _ _ => 1%float)
    (C := {| to_float64 := fun _ => 0%float; of_float64 := fun _ => 0 |}) 9 2
  = Ok (Pow (fun _ _ => 1%float)
          (C := {| to_float64 := fun _ => 0%float; of_float64 := fun _ => 0 |})
          9 0).
Proof.
  apply (Root_int_exponent int64
           {| to_float64 := fun _ => 0%float; of_float64 := fun _ => 0 |}
           (fun _ _ => 1%float) 9 2).
  - right; right; right; reflexivity.
  - unfold in_range; cbn; lia.
Defined.

(** X19.  For two well-formed integer ranges [RangesOverlap] holds exactly
    when some point lies in both; the range [CombineRangesIfOverlap] then
    returns is well-formed, holds exactly the points of either range, and
    does not depend on the order of the two ranges. *)
Theorem CombineRanges_int_union (t : itype) (startA endA startB endB : Z) :
  startA <= endA -> startB <= endB ->
  (RangesOverlap (R := IntReal t) startA endA startB endB = true
   <-> exists x : Z, startA <= x <= endA /\ startB <= x <= endB)
  /\ (RangesOverlap (R := IntReal t) startA endA startB endB = true ->
      exists start end_ : Z,
        CombineRangesIfOverlap (R := IntReal t) startA endA startB endB
        = (true, start, end_)
        /\ CombineRangesIfOverlap (R := IntReal t) startB endB startA endA
           = (true, start, end_)
        /\ start <= end_
        /\ forall x : Z,
             start <= x <= end_
             <-> startA <= x <= endA \/ startB <= x <= endB).
Proof.
  intros HA HB.
  assert (forall a b c d : Z,
             RangesOverlap (R := IntReal t) a b c d = true
             <-> a <= d /\ c <= b) as Hiff.
  { intros a b c d. unfold RangesOverlap. cbn [leb IntReal].
    rewrite andb_true_iff, !Z.leb_le. reflexivity. }
  split.
  - rewrite Hiff. split.
    + intros [H1 H2]. exists (Z.max startA startB). lia.
    + intros [x Hx]. lia.
  - intros Ho.
    assert (RangesOverlap (R := IntReal t) startB endB startA endA = true)
      as Ho' by (apply Hiff; apply Hiff in Ho; lia).
    exists (Z.min startA startB), (Z.max endA endB).
    unfold CombineRangesIfOverlap. rewrite Ho, Ho'. cbn [negb].
    rewrite !Min_int, !Max_int.
    rewrite (Z.min_comm startB), (Z.max_comm endB).
    apply Hiff in Ho.
    repeat split; try lia.
Qed.

Lemma CombineRanges_int_union_witness :
  RangesOverlap (R := IntReal int64) 0 5 3 10 = true
  <-> exists x : Z, 0 <= x <= 5 /\ 3 <= x <= 10.
Proof.
  apply (proj1 (CombineRanges_int_union int64 0 5 3 10 ltac:(lia) ltac:(lia))).
Defined.
